(** * Awesome-Utils-Function: the index log [Log] (classes.py) and the
      parallel map [run_in_parallel] (functions.py)

    A shallow embedding of the two components and the properties their
    specification states about them.

    Modelling conventions.
    - A Python exception aborts the run: fallible code returns a [result],
      and the state reached at the moment of a raise is not tracked.
    - The sidecar file is text, one record per line.  [json.loads] and
      [json.dumps] are library code; a line is represented by what
      [json.loads] makes of it ([None] when it raises), and writing
      [json.dumps js + '\n'] writes the line that parses back to [js].
    - Paths are POSIX paths used as keys of the file store: two paths name
      the same file when they are the same string.  Operating-system
      failures that do not depend on the data (permissions, a regular file
      where a directory is expected) are outside the model: opening a file
      for writing succeeds. *)

From Stdlib Require Import ZArith QArith Ascii String Floats.SpecFloat.
From stdpp Require Import base tactics option list strings gmap.

Local Open Scope Z_scope.
#[local] Set Warnings "-register-all".

(** ** Exceptions and results *)

Inductive exn : Type :=
  | ValueError
  | IndexError
  | KeyError
  | TypeError
  | OverflowError
  | JSONDecodeError
  | IsADirectoryError
  | FileNotFoundError
  | CancelledError
  | UserError (msg : string).

Inductive result (A : Type) : Type :=
  | Ok (a : A)
  | Raise (e : exn).
Arguments Ok {A} a.
Arguments Raise {A} e.

#[global] Instance result_ret : MRet result := fun A a => Ok a.
#[global] Instance result_bind : MBind result := fun A B k m =>
  match m with
  | Ok a => k a
  | Raise e => Raise e
  end.

(** ** JSON values, as [json.loads] returns them *)

Inductive json : Type :=
  | JNull
  | JBool (b : bool)
  | JInt (z : Z)
  | JFloat (f : spec_float)
  | JStr (s : string)
  | JList (xs : list json)
  | JDict (kvs : list (string * json)).

(** A line of a text file: [Some js] when [json.loads] returns [js],
    [None] when it raises. *)
Abbreviation line := (option json).

(** ** Python built-ins used by the code *)

Module builtins.

(** [d[k]] on a JSON value with a string key. *)
Fixpoint assoc (k : string) (kvs : list (string * json)) : option json :=
  match kvs with
  | [] => None
  | (k', v) :: kvs' => if String.eqb k' k then Some v else assoc k kvs'
  end.

Definition getitem (js : json) (k : string) : result json :=
  match js with
  | JDict kvs =>
      match assoc k kvs with
      | Some v => Ok v
      | None => Raise KeyError
      end
  | _ => Raise TypeError
  end.

(** [d[k] = v]: an existing key keeps its position, a new key goes last. *)
Fixpoint assoc_set (k : string) (v : json) (kvs : list (string * json))
  : list (string * json) :=
  match kvs with
  | [] => [(k, v)]
  | (k', v') :: kvs' =>
      if String.eqb k' k then (k', v) :: kvs' else (k', v') :: assoc_set k v kvs'
  end.

Definition setitem (js : json) (k : string) (v : json) : result json :=
  match js with
  | JDict kvs => Ok (JDict (assoc_set k v kvs))
  | _ => Raise TypeError
  end.

(** [js == s] for a string [s]: only a string compares equal to a string. *)
Definition eq_str (js : json) (s : string) : bool :=
  match js with
  | JStr s' => String.eqb s' s
  | _ => false
  end.

(** [int(x)] on a string, ASCII fragment: surrounding white space, an
    optional sign, decimal digits with single underscores between them. *)
Definition is_space (c : ascii) : bool :=
  let n := nat_of_ascii c in
  ((9 <=? n) && (n <=? 13) || (28 <=? n) && (n <=? 32))%nat.

Definition digit_of (c : ascii) : option Z :=
  let n := nat_of_ascii c in
  if ((48 <=? n) && (n <=? 57))%nat then Some (Z.of_nat (n - 48)) else None.

Fixpoint lstrip (s : string) : string :=
  match s with
  | String c s' => if is_space c then lstrip s' else s
  | EmptyString => EmptyString
  end.

Fixpoint rstrip (s : string) : string :=
  match s with
  | String c s' =>
      match rstrip s' with
      | EmptyString => if is_space c then EmptyString else String c EmptyString
      | r => String c r
      end
  | EmptyString => EmptyString
  end.

(** [digits acc after_digit s]: [after_digit] tells whether the previous
    character was a digit (an underscore is accepted only there, and the
    literal must end on a digit). *)
Fixpoint digits (acc : Z) (after_digit : bool) (s : string) : option Z :=
  match s with
  | EmptyString => if after_digit then Some acc else None
  | String c s' =>
      match digit_of c with
      | Some d => digits (10 * acc + d) true s'
      | None =>
          if Ascii.eqb c "_" && after_digit
          then match s' with
               | String c' _ =>
                   match digit_of c' with
                   | Some _ => digits acc false s'
                   | None => None
                   end
               | EmptyString => None
               end
          else None
      end
  end.

Definition int_of_str (s : string) : result Z :=
  let body := rstrip (lstrip s) in
  let parsed :=
    match body with
    | String "-" s' => Z.opp <$> digits 0 false s'
    | String "+" s' => digits 0 false s'
    | _ => digits 0 false body
    end in
  match parsed with
  | Some z => Ok z
  | None => Raise ValueError
  end.

(** [int(x)] on a float truncates towards zero. *)
Definition int_of_float (f : spec_float) : result Z :=
  match f with
  | S754_zero _ => Ok 0
  | S754_infinity _ => Raise OverflowError
  | S754_nan => Raise ValueError
  | S754_finite s m e =>
      let mag := if (0 <=? e) then Z.pos m * 2 ^ e else Z.pos m / 2 ^ (- e) in
      Ok (if s then - mag else mag)
  end.

Definition int (js : json) : result Z :=
  match js with
  | JInt z => Ok z
  | JBool b => Ok (if b then 1 else 0)
  | JFloat f => int_of_float f
  | JStr s => int_of_str s
  | JNull | JList _ | JDict _ => Raise TypeError
  end.

End builtins.

(** ** [os.path] (posixpath) *)

Module posixpath.

Definition sep : ascii := "/".

(** [(p[:i], p[i:])] for [i = p.rfind('/') + 1]. *)
Fixpoint cut (p : string) : string * string :=
  match p with
  | EmptyString => (EmptyString, EmptyString)
  | String c p' =>
      match cut p' with
      | (EmptyString, _) =>
          if Ascii.eqb c sep then (String c EmptyString, p')
          else (EmptyString, p)
      | (h, t) => (String c h, t)
      end
  end.

Fixpoint all_sep (s : string) : bool :=
  match s with
  | EmptyString => true
  | String c s' => Ascii.eqb c sep && all_sep s'
  end.

Fixpoint rstrip_sep (s : string) : string :=
  match s with
  | EmptyString => EmptyString
  | String c s' =>
      match rstrip_sep s' with
      | EmptyString => if Ascii.eqb c sep then EmptyString else String c EmptyString
      | r => String c r
      end
  end.

Definition split (p : string) : string * string :=
  let '(head, tail) := cut p in
  let head :=
    match head with
    | EmptyString => head
    | _ => if all_sep head then head else rstrip_sep head
    end in
  (head, tail).

Definition dirname (p : string) : string := fst (split p).
Definition basename (p : string) : string := snd (split p).

Definition endswith_sep (s : string) : bool :=
  match String.rev s with  (* last character *)
  | String c _ => Ascii.eqb c sep
  | EmptyString => false
  end.

Definition startswith_sep (s : string) : bool :=
  match s with
  | String c _ => Ascii.eqb c sep
  | EmptyString => false
  end.

Definition join (a b : string) : string :=
  if startswith_sep b then b
  else match a with
       | EmptyString => b
       | _ => if endswith_sep a then a +:+ b else a +:+ String sep b
       end.

End posixpath.

(** ** The file store *)

Module os.

Record fs : Type := mk_fs {
  dirs : gset string;                 (* the directories *)
  files : gmap string (list line)     (* the regular files and their lines *)
}.

Definition empty : fs := {| dirs := ∅; files := ∅ |}.

(** [os.path.exists(p)] *)
Definition path_exists (s : fs) (p : string) : bool :=
  bool_decide (p ∈ dirs s) || bool_decide (is_Some (files s !! p)).

Definition mkdir (s : fs) (name : string) : fs :=
  {| dirs := {[name]} ∪ dirs s; files := files s |}.

Definition nonempty (s : string) : bool :=
  match s with EmptyString => false | String _ _ => true end.

(** [os.makedirs(name)]: the missing ancestors first, then [name].  The
    recursion is on a strictly shorter head, so [length name] steps do. *)
Fixpoint makedirs_aux (fuel : nat) (s : fs) (name : string) : fs :=
  let '(head, tail) := posixpath.split name in
  let '(head, tail) :=
    if nonempty tail then (head, tail) else posixpath.split head in
  match fuel with
  | S fuel' =>
      if nonempty head && nonempty tail && negb (path_exists s head)
      then
        let s' := makedirs_aux fuel' s head in
        if String.eqb tail "." then s' else mkdir s' name
      else mkdir s name
  | O => mkdir s name
  end.

Definition makedirs (s : fs) (name : string) : fs :=
  makedirs_aux (String.length name) s name.

(** [open(p, 'r')] and reading the lines. *)
Definition read_lines (s : fs) (p : string) : result (list line) :=
  match files s !! p with
  | Some ls => Ok ls
  | None =>
      if bool_decide (p ∈ dirs s) then Raise IsADirectoryError
      else Raise FileNotFoundError
  end.

(** [open(p, 'w')]: the file is created or truncated. *)
Definition open_w (s : fs) (p : string) : fs :=
  {| dirs := dirs s; files := <[p := []]> (files s) |}.

(** [f.write(ln)] on a file opened for writing: the line goes last. *)
Definition write (s : fs) (p : string) (ln : line) : fs :=
  {| dirs := dirs s;
     files := <[p := default [] (files s !! p) ++ [ln]]> (files s) |}.

End os.

(** ** [json.loads] and [json.dumps] on lines *)

Module json_lib.

Definition loads (ln : line) : result json :=
  match ln with
  | Some js => Ok js
  | None => Raise JSONDecodeError
  end.

Definition dumps (js : json) : line := Some js.

End json_lib.

(** ** classes.py: [Log] *)

Module Log.

Record t : Type := mk {
  log_path : string;
  last_idx : Z;
  logs : list json
}.

(** [{'filename': basename, 'idx': idx}] *)
Definition entry (basename : string) (idx : Z) : json :=
  JDict [("filename"%string, JStr basename); ("idx"%string, JInt idx)].

(** The loop of [__init__] over the lines of the sidecar file. *)
Fixpoint scan (basename : string) (lines : list line)
    (last_idx : Z) (logs : list json) : result (Z * list json) :=
  match lines with
  | [] => Ok (last_idx, logs)
  | ln :: lines' =>
      js ← json_lib.loads ln;
      name ← builtins.getitem js "filename";
      if builtins.eq_str name basename
      then
        v ← builtins.getitem js "idx";
        i ← builtins.int v;
        scan basename lines' i logs
      else scan basename lines' last_idx (logs ++ [js])
  end.

Definition __init__ (s : os.fs) (output_path : string) : result (t * os.fs) :=
  let dirname := posixpath.dirname output_path in
  let basename := posixpath.basename output_path in
  let log_path := posixpath.join dirname "idx.log" in
  let s :=
    if os.nonempty dirname && negb (os.path_exists s dirname)
    then os.makedirs s dirname else s in
  '(last_idx, logs) ←
    (if os.path_exists s log_path
     then lines ← os.read_lines s log_path; scan basename lines 0 []
     else Ok (0, []));
  Ok ({| log_path := log_path;
         last_idx := last_idx;
         logs := logs ++ [entry basename last_idx] |}, s).

(** [self.logs[-1]['idx'] = idx]: the last dictionary of the list is
    changed in place. *)
Definition set_last_idx (logs : list json) (idx : Z) : result (list json) :=
  match last logs with
  | None => Raise IndexError
  | Some js =>
      js' ← builtins.setitem js "idx" (JInt idx);
      Ok (<[pred (length logs) := js']> logs)
  end.

(** [for js in self.logs: f_a.write(json.dumps(js) + '\n')] *)
Definition write_all (s : os.fs) (p : string) (logs : list json) : os.fs :=
  foldl (fun s js => os.write s p (json_lib.dumps js)) s logs.

Definition update (self : t) (idx : Z) (s : os.fs) : result (t * os.fs) :=
  let s := os.open_w s (log_path self) in
  logs' ← set_last_idx (logs self) idx;
  let s := write_all s (log_path self) logs' in
  Ok ({| log_path := log_path self; last_idx := idx; logs := logs' |}, s).

Definition set_zero (self : t) (s : os.fs) : result (t * os.fs) :=
  let self := {| log_path := log_path self; last_idx := 0; logs := logs self |} in
  logs' ← set_last_idx (logs self) 0;
  let self :=
    {| log_path := log_path self; last_idx := last_idx self; logs := logs' |} in
  let s := os.open_w s (log_path self) in
  let s := write_all s (log_path self) (logs self) in
  Ok (self, s).

(** The two mutating calls, and a sequence of them on one object. *)
Inductive op : Type :=
  | Update (idx : Z)
  | SetZero.

Definition run_op (o : op) (self : t) (s : os.fs) : result (t * os.fs) :=
  match o with
  | Update idx => update self idx s
  | SetZero => set_zero self s
  end.

Fixpoint run_ops (ops : list op) (self : t) (s : os.fs) : result (t * os.fs) :=
  match ops with
  | [] => Ok (self, s)
  | o :: ops' => '(self', s') ← run_op o self s; run_ops ops' self' s'
  end.

(** The value a call writes. *)
Definition written (o : op) : Z :=
  match o with
  | Update idx => idx
  | SetZero => 0
  end.

(** *** Vocabulary of the statements *)

(** The sidecar file of an output path. *)
Definition sidecar (output_path : string) : string :=
  posixpath.join (posixpath.dirname output_path) "idx.log".

(** The store after the directory of the output path has been created. *)
Definition prepared (s : os.fs) (output_path : string) : os.fs :=
  let dirname := posixpath.dirname output_path in
  if os.nonempty dirname && negb (os.path_exists s dirname)
  then os.makedirs s dirname else s.

(** [js] is a record of the file [basename], or a record of another file. *)
Definition is_entry_of (basename : string) (js : json) : bool :=
  match builtins.getitem js "filename" with
  | Ok name => builtins.eq_str name basename
  | Raise _ => false
  end.

Definition is_other (basename : string) (js : json) : bool :=
  match builtins.getitem js "filename" with
  | Ok name => negb (builtins.eq_str name basename)
  | Raise _ => false
  end.

(** The filenames of the records of a store, in file order. *)
Definition filename_of (ln : line) : option json :=
  match ln with
  | Some (JDict kvs) => builtins.assoc "filename" kvs
  | _ => None
  end.

Definition filenames (ls : list line) : list json := omap filename_of ls.

(** The in-memory sequence of a Log for [basename]: the records [others]
    of other files, then the record of [basename] with the held index. *)
Definition holds (basename : string) (others : list json) (self : t) : Prop :=
  logs self = others ++ [entry basename (last_idx self)] /\
  Forall (fun js => is_other basename js = true) others.

(** The lines of the file at [p] ([[]] when there is none). *)
Definition stored (s : os.fs) (p : string) : list line :=
  default [] (os.files s !! p).

End Log.

(** ** functions.py: [run_in_parallel] *)

Module functions.

(** Python values passed as arguments. *)
Inductive pyval : Type :=
  | VNone
  | VBool (b : bool)
  | VInt (z : Z)
  | VStr (s : string)
  | VTuple (xs : list pyval)
  | VList (xs : list pyval).

(** A function object: [func.__code__.co_argcount] and what a call of
    [func] on a row of arguments returns or raises.  The function is taken
    to depend on its arguments only: invocations share no mutable state. *)
Record callable : Type := mk_callable {
  co_argcount : nat;
  call : list pyval -> result pyval
}.

(** [xs[i]] *)
Definition index {A} (xs : list A) (i : nat) : result A :=
  match xs !! i with
  | Some x => Ok x
  | None => Raise IndexError
  end.

(** [for arg in args: if isinstance(arg, list):
       list_arg_lens.append(len(arg))] *)
Fixpoint collect_lens (args : list pyval) (list_arg_lens : list nat) : list nat :=
  match args with
  | [] => list_arg_lens
  | VList xs :: args' => collect_lens args' (list_arg_lens ++ [length xs])
  | _ :: args' => collect_lens args' list_arg_lens
  end.

(** [all(l == list_arg_lens[0] for l in list_arg_lens)]: the generator
    evaluates [list_arg_lens[0]] once per element [l] of [ls]. *)
Fixpoint all_eq_first (list_arg_lens ls : list nat) : result bool :=
  match ls with
  | [] => Ok true
  | l :: ls' =>
      l0 ← index list_arg_lens 0;
      if (l =? l0)%nat then all_eq_first list_arg_lens ls' else Ok false
  end.

(** [for arg in args: new_args.append(arg if isinstance(arg, list)
       else [arg] * list_arg_lens[0])] *)
Fixpoint broadcast (args : list pyval) (list_arg_lens : list nat)
    (new_args : list (list pyval)) : result (list (list pyval)) :=
  match args with
  | [] => Ok new_args
  | VList xs :: args' => broadcast args' list_arg_lens (new_args ++ [xs])
  | arg :: args' =>
      l0 ← index list_arg_lens 0;
      broadcast args' list_arg_lens (new_args ++ [replicate l0 arg])
  end.

(** [zip] over the iterables: the tuples of the i-th elements, up to the shortest
    iterable; no iterable gives no tuple. *)
Fixpoint zip_star (iterables : list (list pyval)) : list (list pyval) :=
  match iterables with
  | [] => []
  | [xs] => (fun x => [x]) <$> xs
  | xs :: rest => zip_with cons xs (zip_star rest)
  end.

(** *** The thread pool

    [executor.map] submits one task per row.  At most [n] tasks are in
    flight, the first [n] of those not yet completed; which of them
    completes next is the scheduler's choice [sched t] at step [t].  A
    completed task stores its outcome in the slot of its index, and the
    pool drains every submitted task.  [trace] lists the rows [func] was
    called on, in completion order. *)
Record pool : Type := mk_pool {
  pending : list nat;
  slots : list (option (result pyval));
  trace : list (list pyval)
}.

Definition complete (func : callable) (rows : list (list pyval)) (n : nat)
    (choice : nat) (st : pool) : pool :=
  let window := Nat.min n (length (pending st)) in
  match window with
  | O => st                      (* no worker, or nothing left to do *)
  | S _ =>
      let k := (choice mod window)%nat in
      match pending st !! k with
      | Some i =>
          match rows !! i with
          | Some row =>
              {| pending := delete k (pending st);
                 slots := <[i := Some (call func row)]> (slots st);
                 trace := trace st ++ [row] |}
          | None => st
          end
      | None => st
      end
  end.

Fixpoint drain (func : callable) (rows : list (list pyval)) (n : nat)
    (sched : nat -> nat) (steps t : nat) (st : pool) : pool :=
  match steps with
  | O => st
  | S steps' =>
      drain func rows n sched steps' (S t) (complete func rows n (sched t) st)
  end.

(** [future.result()] for each future in submission order; the first one
    that raised ends the iteration. *)
Fixpoint results_in_order (slots : list (option (result pyval)))
  : result (list pyval) :=
  match slots with
  | [] => Ok []
  | slot :: slots' =>
      r ← default (Raise CancelledError) slot;
      rs ← results_in_order slots';
      Ok (r :: rs)
  end.

Definition executor_map (func : callable) (rows : list (list pyval)) (n : nat)
    (sched : nat -> nat) : result (list pyval) * list (list pyval) :=
  let st0 := {| pending := seq 0 (length rows);
                slots := replicate (length rows) None;
                trace := [] |} in
  let st := drain func rows n sched (length rows) 0 st0 in
  (results_in_order (slots st), trace st).

(** [run_in_parallel] on [func], [args] and [n], under the scheduler [sched]: what
    the call returns or raises, and the rows [func] was called on. *)
Definition run_in_parallel (func : callable) (args : list pyval) (n : Z)
    (sched : nat -> nat) : result (list pyval) * list (list pyval) :=
  if negb (length args =? co_argcount func)%nat then (Raise ValueError, [])
  else
    let list_arg_lens := collect_lens args [] in
    match all_eq_first list_arg_lens list_arg_lens with
    | Raise e => (Raise e, [])
    | Ok false => (Raise ValueError, [])
    | Ok true =>
        match broadcast args list_arg_lens [] with
        | Raise e => (Raise e, [])
        | Ok new_args =>
            (* ThreadPoolExecutor(max_workers=n) *)
            if (n <=? 0) then (Raise ValueError, [])
            else
              let '(results, calls) :=
                executor_map func (zip_star new_args) (Z.to_nat n) sched in
              (* total=list_arg_lens[0] *)
              match index list_arg_lens 0 with
              | Raise e => (Raise e, calls)
              | Ok _ => (results, calls)
              end
        end
    end.

(** What the specification says of invocation [i]: the i-th element of a
    list argument, a scalar argument itself. *)
Definition row_at (args : list pyval) (i : nat) : list pyval :=
  (fun arg =>
     match arg with
     | VList xs => default VNone (xs !! i)
     | _ => arg
     end) <$> args.

(** *** Vocabulary of the statements *)

(** [isinstance(arg, list)] and, for a list, its length. *)
Definition is_list (arg : pyval) : bool :=
  match arg with VList _ => true | _ => false end.

Definition list_len (arg : pyval) : option nat :=
  match arg with VList xs => Some (length xs) | _ => None end.

(** The sequence an argument stands for among sequences of length [l0]:
    a list is itself, any other value is repeated whole. *)
Definition column (l0 : nat) (arg : pyval) : list pyval :=
  match arg with VList xs => xs | _ => replicate l0 arg end.

(** The i-th tuple of a list of sequences. *)
Definition tuple_at (i : nat) (cols : list (list pyval)) : list pyval :=
  (fun col => default VNone (col !! i)) <$> cols.

(** The invariant of the pool: every task is pending or has its outcome
    in its slot, and [func] has been called on the rows of the completed
    tasks, once each. *)
Definition pool_inv (func : callable) (rows : list (list pyval)) (st : pool)
  : Prop :=
  length (slots st) = length rows /\
  (forall i, i ∈ pending st -> (i < length rows)%nat) /\
  NoDup (pending st) /\
  (forall i row, rows !! i = Some row ->
     slots st !! i
     = Some (if bool_decide (i ∈ pending st) then None
             else Some (call func row))) /\
  trace st ++ omap (fun i => rows !! i) (pending st) ≡ₚ rows.

End functions.

(** ** functions.py: [get_child] and [load_jsonl] *)

Module functions_more.

(** *** [get_child] *)

(** A tree-like object: [None], or an object whose attributes hold lists
    of objects.  [None] has none of these attributes. *)
Inductive pyobj : Type :=
  | PNone
  | PObj (attrs : list (string * list pyobj)).

(** What [get_child] hands to the logger. *)
Inductive log_record : Type :=
  | LogWarning (index : Z)     (* logger.warning: index out of range *)
  | LogException.              (* logger.exception: no such attribute *)

(** [getattr(o, name)]: [None] stands for [AttributeError]. *)
Fixpoint lookup_attr (name : string) (attrs : list (string * list pyobj))
  : option (list pyobj) :=
  match attrs with
  | [] => None
  | (name', value) :: attrs' =>
      if String.eqb name' name then Some value else lookup_attr name attrs'
  end.

Definition getattr (o : pyobj) (name : string) : option (list pyobj) :=
  match o with
  | PNone => None
  | PObj attrs => lookup_attr name attrs
  end.

(** [xs[index]] for an integer index: a negative index counts from the
    end; [None] stands for [IndexError]. *)
Definition subscript {A} (xs : list A) (index : Z) : option A :=
  let n := Z.of_nat (length xs) in
  if (0 <=? index) then xs !! Z.to_nat index
  else if (- n <=? index) then xs !! Z.to_nat (n + index)
  else None.

(** The loop of [get_child]. *)
Fixpoint walk (current_node : pyobj) (indices : list Z) (attribute : string)
  : pyobj * list log_record :=
  match indices with
  | [] => (current_node, [])
  | index :: indices' =>
      match getattr current_node attribute with
      | None => (PNone, [LogException])
      | Some children =>
          match subscript children index with
          | None => (PNone, [LogWarning index])
          | Some child => walk child indices' attribute
          end
      end
  end.

(** [indices: Union[int, List[int]]] *)
Inductive indices_arg : Type :=
  | OneIndex (index : Z)
  | Indices (indices : list Z).

Definition get_child (obj : pyobj) (indices : indices_arg) (attribute : string)
  : pyobj * list log_record :=
  let indices :=
    match indices with
    | OneIndex index => [index]
    | Indices indices => indices
    end in
  walk obj indices attribute.

(** *** [load_jsonl] *)

Definition newline : string := String (ascii_of_nat 10) EmptyString.

(** [f.readlines()] on the text of a file: every line keeps its newline. *)
Fixpoint readlines (text : string) : list string :=
  match text with
  | EmptyString => []
  | String c text' =>
      if Ascii.eqb c (ascii_of_nat 10) then String c EmptyString :: readlines text'
      else match readlines text' with
           | [] => [String c EmptyString]
           | l :: ls => String c l :: ls
           end
  end.

(** [line.strip()] *)
Definition strip (line : string) : string :=
  builtins.rstrip (builtins.lstrip line).

Section with_loads.

(** [json.loads] on a text: the value, or the message of the
    [JSONDecodeError] it raises. *)
Variable loads : string -> json + string.

(** The loop of the second branch: one JSON text per non-blank line. *)
Fixpoint each_line (lines : list string) (data_list : list json)
  : list json + string :=
  match lines with
  | [] => inl data_list
  | line :: lines' =>
      let line := strip line in
      if os.nonempty line
      then match loads line with
           | inl obj => each_line lines' (data_list ++ [obj])
           | inr msg => inr msg
           end
      else each_line lines' data_list
  end.

(** The loop of the first branch: the stripped lines are collected up to
    a line that is a closing brace, and their concatenation is decoded. *)
Fixpoint each_object (lines json_lines : list string) (data_list : list json)
  : list json + string :=
  match lines with
  | [] => inl data_list
  | line :: lines' =>
      let line := strip line in
      let json_lines :=
        if os.nonempty line then json_lines ++ [line] else json_lines in
      if String.eqb line "}"
      then match loads (String.concat "" json_lines) with
           | inl obj => each_object lines' [] (data_list ++ [obj])
           | inr msg => inr msg
           end
      else each_object lines' json_lines data_list
  end.

(** [load_jsonl] on the lines read: the list returned and what is
    printed. *)
Definition load_lines (lines : list string) : list json * list string :=
  match lines with
  | [] => ([], [])
  | first :: _ =>
      let decoded :=
        if String.eqb first (String "{" newline)
        then each_object lines [] []
        else each_line lines [] in
      match decoded with
      | inl data_list => (data_list, [])
      | inr msg => ([], ["Error decoding JSON: " +:+ msg])
      end
  end.

Definition load_jsonl (files : gmap string string) (file_path : string)
  : result (list json * list string) :=
  match files !! file_path with
  | None => Raise FileNotFoundError
  | Some text => Ok (load_lines (readlines text))
  end.

End with_loads.

(** *** Vocabulary of the statements *)

(** The JSON texts of the second branch: the stripped non-blank lines. *)
Definition texts (lines : list string) : list string :=
  List.filter os.nonempty (strip <$> lines).

(** A line that closes an object in the first branch. *)
Definition closes (line : string) : bool := String.eqb (strip line) "}".

(** The JSON text of the lines of one object. *)
Definition object_text (lines : list string) : string :=
  String.concat "" (texts lines).

(** The lines of one object of the first branch: lines that close
    nothing, then a closing line. *)
Definition object_lines (lines : list string) : Prop :=
  exists body close,
    lines = body ++ [close] /\ closes close = true /\
    Forall (fun line => closes line = false) body.

(** The first line selects the first branch. *)
Definition starts_object (lines : list string) : bool :=
  match lines with
  | first :: _ => String.eqb first (String "{" newline)
  | [] => false
  end.

End functions_more.

(** ** decorators.py: [retry] and [cache] *)

Module decorators.

Import functions.

(** What a call raises: an exception that [except Exception] catches, or
    one of the others. *)
Inductive raised : Type :=
  | Exc (e : exn)
  | KeyboardInterrupt
  | SystemExit.

Inductive outcome : Type :=
  | Returned (v : pyval)
  | Raised (r : raised).

(** *** [retry] *)

Inductive message : Type :=
  | Running (i : Z)                (* Running (i): name() *)
  | ErrorRetrying (e : exn)        (* Error: repr(e) -> Retrying... *)
  | ErrorFinal (e : exn)           (* Error: repr(e). *)
  | FailedAfter (retries : Z).     (* "name()" failed after retries retries. *)

Inductive event : Type :=
  | Called                         (* func(...) is invoked *)
  | Printed (m : message)
  | Slept (delay : Q).

(** The wrapped function, by the outcome of its k-th invocation
    (k = 0, 1, ...). *)
Definition attempts_of : Type := nat -> outcome.

(** [for i in range(1, retries + 1)], with [todo] iterations left and
    [k = i - 1] invocations made. *)
Fixpoint retry_loop (func : attempts_of) (retries : Z) (delay : Q)
    (todo k : nat) : outcome * list event :=
  match todo with
  | O => (Returned VNone, [])
  | S todo' =>
      let i := Z.of_nat (S k) in
      match func k with
      | Returned v => (Returned v, [Called])
      | Raised (Exc e) =>
          if (i =? retries)
          then (Returned VNone,
                [Called; Printed (Running i); Printed (ErrorFinal e);
                 Printed (FailedAfter retries)])
          else
            let '(r, events) := retry_loop func retries delay todo' (S k) in
            (r, Called :: Printed (Running i) :: Printed (ErrorRetrying e)
                  :: Slept delay :: events)
      | Raised r => (Raised r, [Called])
      end
  end.

Definition retry_wrapper (func : attempts_of) (retries : Z) (delay : Q)
  : outcome * list event :=
  retry_loop func retries delay (Z.to_nat retries) 0.

(** [retry(retries, delay)]: the decorator, or the [ValueError]. *)
Definition retry (retries : Z) (delay : Q)
  : result (attempts_of -> outcome * list event) :=
  if (retries <? 1) || Qle_bool delay 0 then Raise ValueError
  else Ok (fun func => retry_wrapper func retries delay).

Definition calls (events : list event) : nat :=
  length (List.filter (fun ev => match ev with Called => true | _ => false end) events).

Definition sleeps (events : list event) : list Q :=
  omap (fun ev => match ev with Slept d => Some d | _ => None end) events.

(** *** [cache] *)

(** [a == b] *)
Fixpoint py_eq (a b : pyval) {struct a} : bool :=
  let fix all_eq (xs ys : list pyval) {struct xs} : bool :=
    match xs, ys with
    | [], [] => true
    | x :: xs', y :: ys' => py_eq x y && all_eq xs' ys'
    | _, _ => false
    end in
  match a, b with
  | VNone, VNone => true
  | VBool x, VBool y => Bool.eqb x y
  | VBool x, VInt z => (if x then 1 else 0) =? z
  | VInt z, VBool y => z =? (if y then 1 else 0)
  | VInt x, VInt y => x =? y
  | VStr x, VStr y => String.eqb x y
  | VTuple xs, VTuple ys => all_eq xs ys
  | VList xs, VList ys => all_eq xs ys
  | _, _ => false
  end.

(** [hash(a)] returns: a list is unhashable, and so is a tuple that holds
    an unhashable value. *)
Fixpoint hashable (a : pyval) : bool :=
  match a with
  | VList _ => false
  | VTuple xs => forallb hashable xs
  | _ => true
  end.

(** [sorted(kwargs.items())]: the names of keyword arguments are distinct,
    so the items are ordered by name. *)
Fixpoint insert_item (item : string * pyval) (items : list (string * pyval))
  : list (string * pyval) :=
  match items with
  | [] => [item]
  | item' :: items' =>
      if String.leb (fst item) (fst item') then item :: items
      else item' :: insert_item item items'
  end.

Definition sorted_items (kwargs : list (string * pyval)) : list (string * pyval) :=
  foldr insert_item [] kwargs.

(** [key = (args, tuple(sorted(kwargs.items())))] *)
Definition make_key (args : list pyval) (kwargs : list (string * pyval)) : pyval :=
  VTuple [VTuple args;
          VTuple ((fun item => VTuple [VStr (fst item); snd item])
                    <$> sorted_items kwargs)].

(** The dictionary [cache_], in insertion order. *)
Definition cache_dict : Type := list (pyval * pyval).

(** [cache_[key]] for a hashable key. *)
Fixpoint dict_get (d : cache_dict) (key : pyval) : option pyval :=
  match d with
  | [] => None
  | (key', value) :: d' => if py_eq key' key then Some value else dict_get d' key
  end.

(** The wrapped function: what a call on [args] and [kwargs] returns or
    raises. *)
Definition cached_func : Type := list pyval -> list (string * pyval) -> outcome.

(** The wrapper of [cache]: the outcome, the dictionary afterwards, and
    how many times [func] was invoked. *)
Definition cache_wrapper (func : cached_func) (cache_ : cache_dict)
    (args : list pyval) (kwargs : list (string * pyval))
  : outcome * cache_dict * nat :=
  let key := make_key args kwargs in
  if negb (hashable key) then (Raised (Exc TypeError), cache_, 0%nat)
  else
    match dict_get cache_ key with
    | Some value => (Returned value, cache_, 0%nat)
    | None =>
        match func args kwargs with
        | Returned result => (Returned result, cache_ ++ [(key, result)], 1%nat)
        | Raised r => (Raised r, cache_, 1%nat)
        end
    end.

(** Element-wise comparison of two sequences. *)
Fixpoint all_eqb (xs ys : list pyval) : bool :=
  match xs, ys with
  | [], [] => true
  | x :: xs', y :: ys' => py_eq x y && all_eqb xs' ys'
  | _, _ => false
  end.

(** A sequence of calls of the wrapper on one dictionary. *)
Fixpoint cache_calls (func : cached_func) (cache_ : cache_dict)
    (calls : list (list pyval * list (string * pyval))) : cache_dict :=
  match calls with
  | [] => cache_
  | (args, kwargs) :: calls' =>
      cache_calls func (snd (fst (cache_wrapper func cache_ args kwargs))) calls'
  end.

End decorators.

(** ** Further vocabulary for [Log] *)

Module Log_more.

(** A line that the loop of [Log.__init__] for [basename] accepts: it
    parses, it has a ["filename"], and when that is [basename] it has an
    ["idx"] that [int] accepts. *)
Definition readable (basename : string) (ln : line) : bool :=
  match ln with
  | None => false
  | Some js =>
      match builtins.getitem js "filename" with
      | Raise _ => false
      | Ok name =>
          if builtins.eq_str name basename
          then match builtins.getitem js "idx" with
               | Ok v => match builtins.int v with Ok _ => true | Raise _ => false end
               | Raise _ => false
               end
          else true
      end
  end.

End Log_more.

(** ** Inputs of the examples *)

Module examples.

Import functions.

(** [def add(a, b): return a + b] *)
Definition add : callable :=
  {| co_argcount := 2;
     call := fun row =>
       match row with
       | [VInt a; VInt b] => Ok (VInt (a + b))
       | _ => Raise TypeError
       end |}.

(** [def pack(a, b, c): return (a, b, c)] *)
Definition pack : callable :=
  {| co_argcount := 3;
     call := fun row =>
       match row with
       | [_; _; _] => Ok (VTuple row)
       | _ => Raise TypeError
       end |}.

Definition ints (zs : list Z) : pyval := VList (VInt <$> zs).

(** A scheduler under which the youngest task in flight completes first,
    and one under which the oldest does. *)
Definition youngest_first (t : nat) : nat := 7%nat.
Definition oldest_first (t : nat) : nat := 0%nat.

(** A sidecar with two records for [train.jsonl] and one for [dev.jsonl]. *)
Definition out_dir : os.fs :=
  {| os.dirs := {["out"%string]};
     os.files :=
       {["out/idx.log"%string :=
           [Some (Log.entry "train.jsonl" 7);
            Some (Log.entry "dev.jsonl" 3);
            Some (Log.entry "train.jsonl" 110)]]} |}.

End examples.

(** ** Inputs of further examples *)

Module examples_more.

Import functions functions_more decorators.

(** A node with three children, the second of which has one child. *)
Definition leaf : pyobj := PObj [("children"%string, [])].
Definition inner : pyobj := PObj [("children"%string, [leaf])].
Definition root : pyobj := PObj [("children"%string, [leaf; inner; PNone])].

(** A function that raises twice and then returns 42. *)
Definition flaky : attempts_of := fun k =>
  match k with
  | O => Raised (Exc ValueError)
  | S O => Raised (Exc KeyError)
  | _ => Returned (VInt 42)
  end.

(** A function that always raises, and one that is interrupted at its
    second invocation. *)
Definition broken : attempts_of := fun _ => Raised (Exc ValueError).
Definition interrupted : attempts_of := fun k =>
  match k with
  | O => Raised (Exc ValueError)
  | _ => Raised KeyboardInterrupt
  end.

(** A decoder that knows three JSON texts. *)
Definition loads_table (text : string) : json + string :=
  if String.eqb text "{}" then inl (JDict [])
  else if String.eqb text "1" then inl (JInt 1)
  else if String.eqb text "[]" then inl (JList [])
  else inr "Expecting value"%string.

Definition ln (text : string) : string := text +:+ newline.

(** [def describe(x, **kw): return (x, len(kw))]-like function on one
    positional argument. *)
Definition describe : cached_func := fun args kwargs =>
  match args with
  | [x] => Returned (VTuple [x; VInt (Z.of_nat (length kwargs))])
  | _ => Raised (Exc TypeError)
  end.

End examples_more.

(** * Facts about paths and the file store *)

Section paths.

Import posixpath os.

Lemma length_append (a b : string) :
  String.length (a +:+ b) = (String.length a + String.length b)%nat.
Proof. induction a as [|c a IH]; simpl; [done | by rewrite IH]. Qed.

Lemma cut_length p :
  (String.length (fst (cut p)) + String.length (snd (cut p)))%nat
  = String.length p.
Proof.
  induction p as [|c p IH]; simpl; [done|].
  destruct (cut p) as [[|h0 h] t]; simpl in *.
  - destruct (Ascii.eqb c sep); simpl; lia.
  - lia.
Qed.

Lemma rstrip_sep_length s : (String.length (rstrip_sep s) <= String.length s)%nat.
Proof.
  induction s as [|c s IH]; simpl; [done|].
  destruct (rstrip_sep s); [destruct (Ascii.eqb c sep)|]; simpl in *; lia.
Qed.

Lemma split_length p :
  (String.length (fst (split p)) + String.length (snd (split p))
   <= String.length p)%nat.
Proof.
  unfold split. pose proof (cut_length p) as Hc.
  destruct (cut p) as [[|h0 h] t]; simpl in *; [lia|].
  destruct (Ascii.eqb h0 sep && all_sep h); simpl; [lia|].
  pose proof (rstrip_sep_length (String h0 h)) as Hr. simpl in Hr. lia.
Qed.

Lemma dirname_length p : (String.length (dirname p) <= String.length p)%nat.
Proof. pose proof (split_length p). unfold dirname. lia. Qed.

(** The sidecar path is strictly longer than the directory it lies in. *)
Lemma join_idx_log_length d :
  (String.length d < String.length (join d "idx.log"))%nat.
Proof.
  unfold join. simpl. destruct d as [|c d]; [simpl; lia|].
  destruct (endswith_sep (String c d)); rewrite length_append; simpl; lia.
Qed.

Lemma makedirs_aux_files fuel s name : files (makedirs_aux fuel s name) = files s.
Proof.
  revert s name. induction fuel as [|fuel IH]; intros s name; simpl.
  - destruct (split name) as [h t].
    by destruct (if nonempty t then (h, t) else split h).
  - destruct (split name) as [h t].
    destruct (if nonempty t then (h, t) else split h) as [h' t'].
    destruct (nonempty h' && nonempty t' && negb (path_exists s h')); [|done].
    destruct (String.eqb t' "."); simpl; by rewrite IH.
Qed.

Lemma makedirs_aux_dirs fuel s name p :
  p ∈ dirs (makedirs_aux fuel s name) ->
  p ∈ dirs s \/ (String.length p <= String.length name)%nat.
Proof.
  revert s name. induction fuel as [|fuel IH]; intros s name; simpl.
  - destruct (split name) as [h t].
    destruct (if nonempty t then (h, t) else split h); simpl.
    rewrite elem_of_union, elem_of_singleton. intros [->|?]; auto.
  - pose proof (split_length name) as Hn.
    destruct (split name) as [h t]; simpl in Hn.
    assert (forall h' t', (if nonempty t then (h, t) else split h) = (h', t') ->
              (String.length h' <= String.length name)%nat) as Hh.
    { intros h' t'. destruct (nonempty t).
      - intros [= <- <-]. lia.
      - pose proof (split_length h). intros E. rewrite E in *. simpl in *. lia. }
    destruct (if nonempty t then (h, t) else split h) as [h' t'].
    specialize (Hh _ _ eq_refl).
    destruct (nonempty h' && nonempty t' && negb (path_exists s h')).
    + destruct (String.eqb t' "."); simpl.
      * intros [?|?]%IH; [auto | right; lia].
      * rewrite elem_of_union, elem_of_singleton.
        intros [->|[?|?]%IH]; [auto | auto | right; lia].
    + simpl. rewrite elem_of_union, elem_of_singleton. intros [->|?]; auto.
Qed.

Lemma makedirs_aux_mono fuel s name p :
  p ∈ dirs s -> p ∈ dirs (makedirs_aux fuel s name).
Proof.
  revert s name. induction fuel as [|fuel IH]; intros s name Hin; simpl.
  - destruct (split name) as [h t].
    destruct (if nonempty t then (h, t) else split h); simpl. set_solver.
  - destruct (split name) as [h t].
    destruct (if nonempty t then (h, t) else split h) as [h' t'].
    destruct (nonempty h' && nonempty t' && negb (path_exists s h')).
    + destruct (String.eqb t' "."); simpl; [by apply IH|].
      apply elem_of_union_r. by apply IH.
    + simpl. set_solver.
Qed.

Lemma makedirs_aux_S fuel s name :
  makedirs_aux (S fuel) s name =
  let '(head, tail) := split name in
  let '(head, tail) := if nonempty tail then (head, tail) else split head in
  if nonempty head && nonempty tail && negb (path_exists s head)
  then
    let s' := makedirs_aux fuel s head in
    if String.eqb tail "." then s' else mkdir s' name
  else mkdir s name.
Proof. reflexivity. Qed.

(** More steps than the length of the name change nothing. *)
Lemma makedirs_aux_step fuel s name :
  (String.length name <= fuel)%nat ->
  makedirs_aux (S fuel) s name = makedirs_aux fuel s name.
Proof.
  revert s name. induction fuel as [|fuel IH]; intros s name Hlen.
  - destruct name; [done | simpl in Hlen; lia].
  - rewrite (makedirs_aux_S (S fuel) s name), (makedirs_aux_S fuel s name).
    pose proof (split_length name) as Hn.
    destruct (split name) as [h t]; simpl in Hn.
    assert (forall h' t',
              (if nonempty t then (h, t) else split h) = (h', t') ->
              nonempty t' = true ->
              (String.length h' < String.length name)%nat) as Hh.
    { intros h' t'. destruct (nonempty t) eqn:Ht.
      - intros [= <- <-] _. destruct t; [done | simpl in Hn; lia].
      - pose proof (split_length h). intros E Ht'. rewrite E in *.
        destruct t'; [done | simpl in *; lia]. }
    destruct (if nonempty t then (h, t) else split h) as [h' t'].
    specialize (Hh _ _ eq_refl).
    destruct (nonempty h'); [|done].
    destruct (nonempty t'); [|done].
    destruct (path_exists s h'); [done|]. cbn [andb negb].
    by rewrite IH by (specialize (Hh eq_refl); lia).
Qed.

Lemma makedirs_aux_fuel extra s name :
  makedirs_aux (String.length name + extra) s name = makedirs s name.
Proof.
  unfold makedirs. induction extra as [|extra IH].
  - by rewrite Nat.add_0_r.
  - rewrite Nat.add_succ_r, makedirs_aux_step by lia. exact IH.
Qed.

Lemma makedirs_files s name : files (makedirs s name) = files s.
Proof. apply makedirs_aux_files. Qed.

Lemma makedirs_dirs s name p :
  p ∈ dirs (makedirs s name) ->
  p ∈ dirs s \/ (String.length p <= String.length name)%nat.
Proof. apply makedirs_aux_dirs. Qed.

(** Creating the directory of an output path neither creates nor hides
    its sidecar file. *)
Lemma makedirs_sidecar s d :
  path_exists (makedirs s d) (join d "idx.log") = path_exists s (join d "idx.log").
Proof.
  unfold path_exists. rewrite makedirs_files. f_equal.
  apply bool_decide_ext. split.
  - intros [?|Hlen]%makedirs_dirs; [done|].
    pose proof (join_idx_log_length d). lia.
  - apply makedirs_aux_mono.
Qed.

End paths.

(** * Facts about [Log] *)

Section log_facts.

Import builtins os Log.

Lemma is_other_not_entry b js : is_other b js = true -> is_entry_of b js = false.
Proof.
  unfold is_other, is_entry_of. destruct (getitem js "filename"); [|done].
  by destruct (eq_str a b).
Qed.

Lemma entry_is_entry b v : is_entry_of b (entry b v) = true.
Proof. unfold is_entry_of. simpl. apply String.eqb_refl. Qed.

(** The records of other files pass through the loop in order. *)
Lemma scan_others b others rest i acc :
  Forall (fun js => is_other b js = true) others ->
  scan b ((Some <$> others) ++ rest) i acc = scan b rest i (acc ++ others).
Proof.
  intros H. revert acc. induction H as [|js others Hjs _ IH]; intros acc; simpl.
  - by rewrite app_nil_r.
  - unfold is_other in Hjs. unfold mbind, result_bind at 1 2. simpl.
    destruct (getitem js "filename") as [name|]; [|done].
    destruct (eq_str name b); [done|].
    rewrite IH. by rewrite <- app_assoc.
Qed.

(** The record of the file itself sets the index. *)
Lemma scan_entry b v i acc : scan b [Some (entry b v)] i acc = Ok (v, acc).
Proof. simpl. unfold mbind, result_bind. simpl. by rewrite String.eqb_refl. Qed.

Lemma scan_snapshot b others v i acc :
  Forall (fun js => is_other b js = true) others ->
  scan b (Some <$> (others ++ [entry b v])) i acc = Ok (v, acc ++ others).
Proof.
  intros H. rewrite fmap_app. rewrite scan_others by done. apply scan_entry.
Qed.

(** What a successful run of the loop has read. *)
Lemma scan_inv b lines i acc i' logs' :
  scan b lines i acc = Ok (i', logs') ->
  exists entries,
    lines = Some <$> entries /\
    Forall (fun js => is_Some (filename_of (Some js))) entries /\
    logs' = acc ++ List.filter (is_other b) entries /\
    Forall (fun js => is_other b js = true) (List.filter (is_other b) entries) /\
    match last (List.filter (is_entry_of b) entries) with
    | Some js => (v ← getitem js "idx"; int v) = Ok i'
    | None => i' = i
    end.
Proof.
  revert i acc. induction lines as [|ln lines IH]; intros i acc; simpl.
  - intros [= <- <-]. exists []. simpl. by rewrite app_nil_r.
  - destruct ln as [js|]; [|done]. unfold mbind, result_bind at 1 2. simpl.
    destruct (getitem js "filename") as [name|] eqn:Hname; [|done].
    assert (is_Some (filename_of (Some js))) as Hfn.
    { simpl. destruct js; try done. simpl in Hname.
      destruct (assoc "filename" kvs); [eauto | done]. }
    destruct (eq_str name b) eqn:Heq.
    + assert (is_other b js = false) as Ho
        by (unfold is_other; by rewrite Hname, Heq).
      assert (is_entry_of b js = true) as He
        by (unfold is_entry_of; by rewrite Hname, Heq).
      unfold mbind, result_bind at 1 2.
      destruct (getitem js "idx") as [v|] eqn:Hv; [|done].
      destruct (int v) as [i1|] eqn:Hi1; [|done].
      intros H. apply IH in H as (entries & E & Hall & E' & Hoth & Hlast).
      exists (js :: entries). cbn [List.filter]. rewrite Ho, He.
      split; [by rewrite E|]. split; [by constructor|]. do 2 (split; [done|]).
      destruct (List.filter (is_entry_of b) entries) as [|js' l] eqn:Hf.
      * simpl in *. subst i'. unfold mbind, result_bind. by rewrite Hv.
      * change (last (js :: js' :: l)) with (last (js' :: l)).
        destruct (last (js' :: l)) eqn:Hl; [exact Hlast|].
        by apply last_None in Hl.
    + assert (is_other b js = true) as Ho
        by (unfold is_other; by rewrite Hname, Heq).
      assert (is_entry_of b js = false) as He
        by (unfold is_entry_of; by rewrite Hname, Heq).
      intros H. apply IH in H as (entries & E & Hall & E' & Hoth & Hlast).
      exists (js :: entries). cbn [List.filter]. rewrite Ho, He.
      split; [by rewrite E|]. split; [by constructor|].
      split; [by rewrite E', <- app_assoc|]. split; [by constructor|done].
Qed.

(** *** Construction *)

Lemma prepared_files s P : files (prepared s P) = files s.
Proof. unfold prepared. case_match; [apply makedirs_files | done]. Qed.

Lemma prepared_sidecar s P :
  path_exists (prepared s P) (sidecar P) = path_exists s (sidecar P).
Proof. unfold prepared. case_match; [apply makedirs_sidecar | done]. Qed.

Lemma path_exists_file s p ls : files s !! p = Some ls -> path_exists s p = true.
Proof.
  intros H. unfold path_exists. rewrite (bool_decide_eq_true_2 (is_Some _)).
  - apply orb_true_r.
  - by rewrite H.
Qed.

Lemma path_exists_no_file s p : path_exists s p = false -> files s !! p = None.
Proof.
  unfold path_exists. intros [_ H]%orb_false_elim.
  apply bool_decide_eq_false in H. by apply eq_None_not_Some.
Qed.

Lemma init_unfold s P :
  __init__ s P =
  ('(last_idx, logs) ←
     (if path_exists (prepared s P) (sidecar P)
      then lines ← read_lines (prepared s P) (sidecar P);
           scan (posixpath.basename P) lines 0 []
      else Ok (0, []));
   Ok ({| log_path := sidecar P; last_idx := last_idx;
          logs := logs ++ [entry (posixpath.basename P) last_idx] |},
       prepared s P)).
Proof. reflexivity. Qed.

Lemma init_file s P lines i logs :
  files s !! sidecar P = Some lines ->
  scan (posixpath.basename P) lines 0 [] = Ok (i, logs) ->
  __init__ s P =
  Ok ({| log_path := sidecar P; last_idx := i;
         logs := logs ++ [entry (posixpath.basename P) i] |}, prepared s P).
Proof.
  intros Hf Hs. rewrite init_unfold, prepared_sidecar.
  rewrite (path_exists_file _ _ _ Hf). unfold read_lines.
  rewrite prepared_files, Hf. unfold mbind, result_bind. by rewrite Hs.
Qed.

Lemma init_no_file s P :
  path_exists s (sidecar P) = false ->
  __init__ s P =
  Ok ({| log_path := sidecar P; last_idx := 0;
         logs := [entry (posixpath.basename P) 0] |}, prepared s P).
Proof. intros H. by rewrite init_unfold, prepared_sidecar, H. Qed.

Lemma init_inv s P l s' :
  __init__ s P = Ok (l, s') ->
  s' = prepared s P /\ log_path l = sidecar P /\
  exists others,
    logs l = others ++ [entry (posixpath.basename P) (last_idx l)] /\
    ((path_exists s (sidecar P) = false /\ last_idx l = 0 /\ others = []) \/
     (exists lines, files s !! sidecar P = Some lines /\
        scan (posixpath.basename P) lines 0 [] = Ok (last_idx l, others))).
Proof.
  rewrite init_unfold, prepared_sidecar.
  destruct (path_exists s (sidecar P)) eqn:Hex.
  - unfold read_lines. rewrite prepared_files.
    destruct (files s !! sidecar P) as [lines|] eqn:Hf.
    + unfold mbind, result_bind.
      destruct (scan (posixpath.basename P) lines 0 []) as [[i logs]|] eqn:Hs;
        [|done].
      intros [= <- <-]. simpl. repeat split. exists logs. split; [done|].
      right. by exists lines.
    + by case_bool_decide.
  - unfold mbind, result_bind. intros [= <- <-]. simpl. repeat split.
    exists []. split; [done|]. by left.
Qed.

(** A constructed Log holds the records of the other files and, last, the
    record of its own file. *)
Lemma init_holds s P l s' :
  __init__ s P = Ok (l, s') ->
  log_path l = sidecar P /\ exists others, holds (posixpath.basename P) others l.
Proof.
  intros (_ & Hp & others & Hl & H)%init_inv. split; [done|].
  exists others. split; [done|].
  destruct H as [(_ & _ & ->)|(lines & _ & Hs)]; [constructor|].
  apply scan_inv in Hs as (entries & _ & _ & E & Hall & _).
  simpl in E. by subst others.
Qed.

(** Constructing against a file that a Log has written gives that Log. *)
Lemma init_written s P others v :
  files s !! sidecar P
    = Some (Some <$> (others ++ [entry (posixpath.basename P) v])) ->
  Forall (fun js => is_other (posixpath.basename P) js = true) others ->
  __init__ s P =
  Ok ({| log_path := sidecar P; last_idx := v;
         logs := others ++ [entry (posixpath.basename P) v] |}, prepared s P).
Proof.
  intros Hf Ho. eapply init_file; [done|].
  by rewrite (scan_snapshot _ _ _ _ [] Ho).
Qed.

(** *** The mutating calls *)

Lemma set_last_idx_snoc others b i v :
  set_last_idx (others ++ [entry b i]) v = Ok (others ++ [entry b v]).
Proof.
  unfold set_last_idx. rewrite last_snoc. simpl.
  unfold mbind, result_bind. f_equal.
  rewrite length_app. simpl.
  replace (pred (length others + 1)) with (length others + 0)%nat by lia.
  by rewrite insert_app_r.
Qed.

Lemma write_all_append s p pre logs :
  files s !! p = Some pre ->
  write_all s p logs
  = {| dirs := dirs s; files := <[p := pre ++ (Some <$> logs)]> (files s) |}.
Proof.
  unfold write_all. revert s pre.
  induction logs as [|js logs IH]; intros s pre Hp; simpl.
  - rewrite app_nil_r, insert_id by done. by destruct s.
  - rewrite (IH _ (pre ++ [Some js])); unfold write; cbn [files dirs].
    + rewrite insert_insert_eq. by rewrite <- app_assoc.
    + rewrite lookup_insert_eq. by rewrite Hp.
Qed.

Lemma write_all_open s p logs :
  write_all (open_w s p) p logs
  = {| dirs := dirs s; files := <[p := Some <$> logs]> (files s) |}.
Proof.
  rewrite (write_all_append _ _ []); simpl.
  - by rewrite insert_insert_eq.
  - by rewrite lookup_insert_eq.
Qed.

Lemma update_holds b others l v s :
  holds b others l ->
  update l v s =
  Ok ({| log_path := log_path l; last_idx := v;
         logs := others ++ [entry b v] |},
      {| dirs := dirs s;
         files := <[log_path l := Some <$> (others ++ [entry b v])]> (files s) |}).
Proof.
  intros [Hl _]. unfold update. rewrite Hl, set_last_idx_snoc.
  unfold mbind, result_bind. by rewrite write_all_open.
Qed.

Lemma set_zero_update l s : set_zero l s = update l 0 s.
Proof. unfold set_zero, update. simpl. by destruct (set_last_idx (logs l) 0). Qed.

Lemma run_op_holds b others l o s :
  holds b others l ->
  run_op o l s =
  Ok ({| log_path := log_path l; last_idx := written o;
         logs := others ++ [entry b (written o)] |},
      {| dirs := dirs s;
         files := <[log_path l := Some <$> (others ++ [entry b (written o)])]>
                    (files s) |}).
Proof.
  intros H. destruct o; simpl; [|rewrite set_zero_update]; by apply update_holds.
Qed.

(** Any sequence of calls on a constructed Log returns; the Log keeps its
    records of other files, and the file holds what the last call wrote. *)
Lemma run_ops_holds b others ops l s :
  holds b others l ->
  exists l' s',
    run_ops ops l s = Ok (l', s') /\
    log_path l' = log_path l /\ holds b others l' /\ dirs s' = dirs s /\
    match last ops with
    | None => l' = l /\ s' = s
    | Some o =>
        last_idx l' = written o /\
        files s' = <[log_path l := Some <$> logs l']> (files s)
    end.
Proof.
  revert l s. induction ops as [|o ops IH]; intros l s H.
  - by exists l, s.
  - simpl. rewrite (run_op_holds _ _ _ _ _ H). unfold mbind, result_bind.
    set (l1 := {| log_path := log_path l |}). set (s1 := {| dirs := dirs s |}).
    assert (holds b others l1) as H1 by (split; [done | apply H]).
    destruct (IH l1 s1 H1) as (l' & s' & -> & Hp & H' & Hd & Hlast).
    exists l', s'. repeat split; try done; try apply H'.
    destruct ops as [|o' ops]; simpl in *.
    + destruct Hlast as [-> ->]. done.
    + destruct (last (o' :: ops)) eqn:Hl; [|by apply last_None in Hl].
      destruct Hlast as [? ->]. split; [done|]. by rewrite insert_insert_eq.
Qed.

(** *** Reading a store in two parts, and reading a filtered store *)

Lemma scan_cons b js lines i acc :
  scan b (Some js :: lines) i acc =
  match getitem js "filename" with
  | Ok name =>
      if eq_str name b
      then match getitem js "idx" with
           | Ok v =>
               match int v with
               | Ok i1 => scan b lines i1 acc
               | Raise e => Raise e
               end
           | Raise e => Raise e
           end
      else scan b lines i (acc ++ [js])
  | Raise e => Raise e
  end.
Proof. reflexivity. Qed.

Lemma scan_app b l1 l2 i acc :
  scan b (l1 ++ l2) i acc = ('(i1, acc1) ← scan b l1 i acc; scan b l2 i1 acc1).
Proof.
  revert i acc. induction l1 as [|ln l1 IH]; intros i acc; [done|].
  destruct ln as [js|]; [|done].
  rewrite <- app_comm_cons, !scan_cons.
  destruct (getitem js "filename") as [name|]; [|done].
  destruct (eq_str name b); [|apply IH].
  destruct (getitem js "idx") as [v|]; [|done].
  destruct (int v); [apply IH | done].
Qed.

Lemma other_entry a b v : a <> b -> is_other a (entry b v) = true.
Proof.
  intros Hne. unfold is_other. simpl.
  destruct (String.eqb_spec b a); [by subst | done].
Qed.

Lemma entry_of_other a b js :
  a <> b -> is_entry_of a js = true -> is_other b js = true.
Proof.
  intros Hne. unfold is_entry_of, is_other.
  destruct (getitem js "filename") as [name|]; [|done].
  destruct name; simpl; try done.
  intros ->%String.eqb_eq. by destruct (String.eqb_spec a b).
Qed.

(** Dropping records of another file [b'] does not change the index read
    for [b]. *)
Lemma scan_without b b' entries i acc acc' i' logs :
  b <> b' ->
  scan b (Some <$> entries) i acc = Ok (i', logs) ->
  exists logs',
    scan b (Some <$> List.filter (is_other b') entries) i acc' = Ok (i', logs').
Proof.
  intros Hne. revert i acc acc'.
  induction entries as [|js entries IH]; intros i acc acc'.
  - intros [= <- <-]. by eexists.
  - cbn [List.filter]. rewrite fmap_cons, scan_cons.
    destruct (getitem js "filename") as [name|] eqn:Hname; [|done].
    destruct (eq_str name b) eqn:Heq.
    + assert (is_other b' js = true) as ->.
      { apply (entry_of_other b); [done|]. unfold is_entry_of. by rewrite Hname. }
      rewrite fmap_cons, scan_cons, Hname, Heq.
      destruct (getitem js "idx") as [v|]; [|done].
      destruct (int v); [apply IH | done].
    + intros H. destruct (is_other b' js); [|by eapply IH].
      rewrite fmap_cons, scan_cons, Hname, Heq. by eapply IH.
Qed.

Lemma Forall_filter_other b (f : json -> bool) l :
  Forall (fun js => is_other b js = true) l ->
  Forall (fun js => is_other b js = true) (List.filter f l).
Proof.
  induction 1 as [|js l Hjs _ IH]; simpl; [constructor|].
  destruct (f js); [by constructor | done].
Qed.

(** *** Filenames of a store *)

Lemma filename_of_other b js :
  is_other b js = true ->
  exists name, filename_of (Some js) = Some name /\ name <> JStr b.
Proof.
  unfold is_other. destruct js; simpl; try done.
  destruct (assoc "filename" kvs) as [name|]; [|done].
  intros Hn. exists name. split; [done|]. intros ->.
  simpl in Hn. by rewrite String.eqb_refl in Hn.
Qed.

Lemma filenames_filter_sublist (f : json -> bool) entries :
  filenames (Some <$> List.filter f entries)
    `sublist_of` filenames (Some <$> entries).
Proof.
  unfold filenames. induction entries as [|js entries IH]; [done|].
  cbn [List.filter]. destruct (f js); rewrite ?fmap_cons; cbn [omap list_omap].
  - destruct (filename_of (Some js)); [by apply sublist_skip | done].
  - destruct (filename_of (Some js)); [by apply sublist_cons | done].
Qed.

Lemma filenames_others_fresh b others :
  Forall (fun js => is_other b js = true) others ->
  JStr b ∉ filenames (Some <$> others).
Proof.
  unfold filenames. induction 1 as [|js others Hjs _ IH].
  - apply not_elem_of_nil.
  - destruct (filename_of_other _ _ Hjs) as (name & Hn & Hne).
    rewrite fmap_cons. cbn [omap list_omap]. rewrite Hn.
    apply not_elem_of_cons. split; [done|apply IH].
Qed.

End log_facts.

(** * The index log: the properties of the specification *)

Section log_properties.

Import builtins os Log.

(** C1 (round trip).  For every output path [P] and every non-empty
    sequence of calls [update(v1)], ..., [update(vk)] on a Log constructed
    for [P], the calls return, and constructing a fresh Log for the same
    path afterwards returns a Log with [last_idx = vk]. *)
Theorem C1_round_trip s P l s0 vs vk :
  __init__ s P = Ok (l, s0) ->
  exists l1 s1,
    run_ops (Update <$> (vs ++ [vk])) l s0 = Ok (l1, s1) /\
    exists l2 s2, __init__ s1 P = Ok (l2, s2) /\ last_idx l2 = vk.
Proof.
  intros [Hp [others H]]%init_holds.
  destruct (run_ops_holds _ _ (Update <$> (vs ++ [vk])) l s0 H)
    as (l1 & s1 & Hrun & Hp1 & [Hl1 Ho] & _ & Hlast).
  exists l1, s1. split; [done|].
  rewrite fmap_app in Hlast. change (Update <$> [vk]) with [Update vk] in Hlast.
  rewrite last_snoc in Hlast. destruct Hlast as [Hv Hf]. simpl in Hv.
  rewrite Hl1, Hv, Hp in Hf.
  eexists _, _. split.
  - apply init_written; [|done]. by rewrite Hf, lookup_insert_eq.
  - reflexivity.
Qed.

Lemma C1_round_trip_witness :
  exists l1 s1,
    run_ops (Update <$> ([5; 7] ++ [110]))
      {| log_path := "out/idx.log"; last_idx := 0;
         logs := [entry "train.jsonl" 0] |}
      (prepared os.empty "out/train.jsonl") = Ok (l1, s1) /\
    exists l2 s2, __init__ s1 "out/train.jsonl" = Ok (l2, s2) /\ last_idx l2 = 110.
Proof.
  apply (C1_round_trip os.empty "out/train.jsonl"). vm_compute. reflexivity.
Defined.

(** C7 (no history).  Constructing a Log for a path whose sidecar file
    does not exist is not an error, gives [last_idx = 0] and leaves every
    file as it was: the sidecar still does not exist after construction,
    and it is the first [update] or [set_zero] that creates it. *)
Theorem C7_no_sidecar s P :
  path_exists s (sidecar P) = false ->
  exists l s',
    __init__ s P = Ok (l, s') /\
    last_idx l = 0 /\
    files s' = files s /\
    path_exists s' (sidecar P) = false /\
    forall o, exists l1 s1,
      run_op o l s' = Ok (l1, s1) /\
      files s1 !! sidecar P = Some [Some (entry (posixpath.basename P) (written o))].
Proof.
  intros Hno. eexists _, _. split; [by apply init_no_file|]. simpl.
  split; [done|]. split; [apply prepared_files|].
  split; [by rewrite prepared_sidecar|].
  intros o. eexists _, _. split.
  - apply (run_op_holds (posixpath.basename P) []). by split; [|constructor].
  - simpl. by rewrite lookup_insert_eq.
Qed.

Lemma C7_no_sidecar_witness :
  exists l s',
    __init__ os.empty "out/train.jsonl" = Ok (l, s') /\
    last_idx l = 0 /\
    files s' = files os.empty /\
    path_exists s' (sidecar "out/train.jsonl") = false /\
    forall o, exists l1 s1,
      run_op o l s' = Ok (l1, s1) /\
      files s1 !! sidecar "out/train.jsonl"
      = Some [Some (entry (posixpath.basename "out/train.jsonl") (written o))].
Proof. apply (C7_no_sidecar os.empty "out/train.jsonl"). vm_compute. reflexivity. Defined.

(** C8 (reset).  On every Log in every state [set_zero()] does what
    [update(0)] does: the same in-memory sequence, the same held index and
    the same rewritten file.  On a Log constructed for [P], after any calls,
    [set_zero()] returns with [last_idx = 0] whatever the index was, and a
    fresh Log for [P] reads [last_idx = 0] again. *)
Theorem C8_set_zero :
  (forall l s, set_zero l s = update l 0 s) /\
  (forall s P l s0 ops,
     __init__ s P = Ok (l, s0) ->
     exists l1 s1,
       run_ops ops l s0 = Ok (l1, s1) /\
       exists l2 s2,
         set_zero l1 s1 = Ok (l2, s2) /\ last_idx l2 = 0 /\
         exists l3 s3, __init__ s2 P = Ok (l3, s3) /\ last_idx l3 = 0).
Proof.
  split.
  - intros l s. unfold set_zero, update. simpl.
    by destruct (set_last_idx (logs l) 0).
  - intros s P l s0 ops [Hp [others H]]%init_holds.
    destruct (run_ops_holds _ _ ops l s0 H)
      as (l1 & s1 & Hrun & Hp1 & H1 & _ & _).
    exists l1, s1. split; [done|].
    eexists _, _. split; [apply (run_op_holds _ _ _ SetZero _ H1)|].
    simpl. split; [done|].
    eexists _, _. split.
    + apply init_written; [|apply H1]. simpl.
      by rewrite Hp1, Hp, lookup_insert_eq.
    + reflexivity.
Qed.

Lemma C8_set_zero_witness :
  exists l1 s1,
    run_ops [Update 110; SetZero; Update 42]
      {| log_path := "out/idx.log"; last_idx := 0;
         logs := [entry "train.jsonl" 0] |}
      (prepared os.empty "out/train.jsonl") = Ok (l1, s1) /\
    exists l2 s2,
      set_zero l1 s1 = Ok (l2, s2) /\ last_idx l2 = 0 /\
      exists l3 s3, __init__ s2 "out/train.jsonl" = Ok (l3, s3) /\ last_idx l3 = 0.
Proof.
  apply (proj2 C8_set_zero os.empty "out/train.jsonl"). vm_compute. reflexivity.
Defined.

(** C3, as the specification states it, fails: the older records of the
    file itself are not kept.  The sidecar of [out/] holds a record of
    [train.jsonl] with index 7, a record of [dev.jsonl] and a record of
    [train.jsonl] with index 110.  The constructed Log holds the record of
    [dev.jsonl] and the fresh tail record only, and [update(120)] writes
    these two lines: neither older record of [train.jsonl] is in memory
    or written back. *)
Lemma C3_counterexample :
  let old1 := entry "train.jsonl" 7 in
  let old2 := entry "train.jsonl" 110 in
  exists l s0 l1 s1,
    __init__ examples.out_dir "out/train.jsonl" = Ok (l, s0) /\
    logs l = [entry "dev.jsonl" 3; entry "train.jsonl" 110] /\
    update l 120 s0 = Ok (l1, s1) /\
    stored s1 "out/idx.log"
      = [Some (entry "dev.jsonl" 3); Some (entry "train.jsonl" 120)] /\
    ~ In old1 (logs l) /\
    ~ In (Some old1) (stored s1 "out/idx.log") /\
    ~ In (Some old2) (stored s1 "out/idx.log").
Proof.
  eexists _, _, _, _. split; [vm_compute; reflexivity|].
  split; [reflexivity|]. split; [vm_compute; reflexivity|].
  split; [vm_compute; reflexivity|].
  split; [|split]; vm_compute; intros [H|[H|[]]]; discriminate H.
Qed.

(** C3, amended.  When a Log is constructed for [P] against a sidecar that
    contains a record for [basename(P)], the constructed sequence is the
    records of the other files, in file order, followed by one fresh record
    carrying the last known index (the index of the last record for
    [basename(P)] in the file).  No older record for [basename(P)] is kept,
    and the next [update] or [set_zero] writes exactly that sequence with
    the new index in its last record. *)
Theorem C3_construction_drops_older s P lines old l s0 :
  files s !! sidecar P = Some lines ->
  In (Some old) lines ->
  is_entry_of (posixpath.basename P) old = true ->
  __init__ s P = Ok (l, s0) ->
  exists entries newest,
    lines = Some <$> entries /\
    last (List.filter (is_entry_of (posixpath.basename P)) entries) = Some newest /\
    (v ← getitem newest "idx"; int v) = Ok (last_idx l) /\
    logs l = List.filter (is_other (posixpath.basename P)) entries
               ++ [entry (posixpath.basename P) (last_idx l)] /\
    ~ In old (List.filter (is_other (posixpath.basename P)) entries) /\
    forall o, exists l1 s1,
      run_op o l s0 = Ok (l1, s1) /\
      files s1 !! sidecar P
      = Some (Some <$> (List.filter (is_other (posixpath.basename P)) entries
                          ++ [entry (posixpath.basename P) (written o)])).
Proof.
  intros Hf Hin Hold Hinit.
  destruct (init_inv _ _ _ _ Hinit) as (_ & Hp & others & Hl & Hcase).
  destruct Hcase as [(Hno & _)|(lines' & Hf' & Hs)].
  { apply path_exists_no_file in Hno. congruence. }
  assert (lines' = lines) as -> by congruence.
  apply scan_inv in Hs as (entries & -> & _ & E & Hoth & Hlast).
  simpl in E. subst others.
  assert (In old (List.filter (is_entry_of (posixpath.basename P)) entries)) as Hm.
  { apply filter_In. split; [|done].
    apply list_elem_of_In, list_elem_of_fmap in Hin as (js & [= ->] & Hjs).
    by apply list_elem_of_In. }
  destruct (last (List.filter (is_entry_of (posixpath.basename P)) entries))
    as [newest|] eqn:Hnew.
  2:{ apply last_None in Hnew. rewrite Hnew in Hm. destruct Hm. }
  exists entries, newest. do 4 (split; [done|]). split.
  - intros [_ Ho]%filter_In. apply is_other_not_entry in Ho. congruence.
  - intros o. eexists _, _. split.
    + by apply (run_op_holds (posixpath.basename P)
                  (List.filter (is_other (posixpath.basename P)) entries)).
    + simpl. by rewrite Hp, lookup_insert_eq.
Qed.

Lemma C3_construction_drops_older_witness :
  let old := entry "train.jsonl" 7 in
  let s := examples.out_dir in
  let l := {| log_path := "out/idx.log"; last_idx := 110;
              logs := [entry "dev.jsonl" 3; entry "train.jsonl" 110] |} in
  exists entries newest,
    [Some old; Some (entry "dev.jsonl" 3); Some (entry "train.jsonl" 110)]
      = Some <$> entries /\
    last (List.filter (is_entry_of "train.jsonl") entries) = Some newest /\
    (v ← getitem newest "idx"; int v) = Ok 110 /\
    logs l = List.filter (is_other "train.jsonl") entries
               ++ [entry "train.jsonl" 110] /\
    ~ In old (List.filter (is_other "train.jsonl") entries) /\
    forall o, exists l1 s1,
      run_op o l s = Ok (l1, s1) /\
      files s1 !! sidecar "out/train.jsonl"
      = Some (Some <$> (List.filter (is_other "train.jsonl") entries
                          ++ [entry "train.jsonl" (written o)])).
Proof.
  intros old s l.
  apply (C3_construction_drops_older s "out/train.jsonl" _ old l s).
  - vm_compute. reflexivity.
  - left. reflexivity.
  - vm_compute. reflexivity.
  - vm_compute. reflexivity.
Defined.

(** C5 (one record per filename).  If the sidecar holds at most one record
    per filename, then after constructing a Log and any sequence of
    [update] and [set_zero] calls, which all return, the sidecar holds at
    most one record per filename. *)
Theorem C5_unique_filenames s P l s0 ops :
  NoDup (filenames (stored s (sidecar P))) ->
  __init__ s P = Ok (l, s0) ->
  exists l1 s1,
    run_ops ops l s0 = Ok (l1, s1) /\
    NoDup (filenames (stored s1 (sidecar P))).
Proof.
  intros Hnd Hinit.
  destruct (init_inv _ _ _ _ Hinit) as (-> & Hp & others & Hl & Hcase).
  assert (Forall (fun js => is_other (posixpath.basename P) js = true) others
          /\ NoDup (filenames (Some <$> others))) as [Ho Hndo].
  { destruct Hcase as [(_ & _ & ->)|(lines & Hf & Hs)].
    - split; constructor.
    - apply scan_inv in Hs as (entries & -> & _ & E & Hoth & _).
      simpl in E. subst others. split; [done|].
      unfold stored in Hnd. rewrite Hf in Hnd.
      eapply sublist_NoDup; [exact Hnd | apply filenames_filter_sublist]. }
  destruct (run_ops_holds _ _ ops l (prepared s P) (conj Hl Ho))
    as (l1 & s1 & Hrun & _ & [Hl1 _] & _ & Hlast).
  exists l1, s1. split; [done|].
  destruct (last ops) as [o'|].
  - destruct Hlast as [_ Hf]. unfold stored.
    rewrite Hf, Hp, lookup_insert_eq, Hl1. simpl.
    unfold filenames. rewrite fmap_app, omap_app. apply NoDup_app.
    split; [done|]. split; [|apply NoDup_singleton].
    intros name Hname. cbn. intros ->%list_elem_of_singleton.
    by apply (filenames_others_fresh _ _ Ho).
  - destruct Hlast as [_ ->]. unfold stored. by rewrite prepared_files.
Qed.

Lemma C5_unique_filenames_witness :
  let s := {| dirs := {["out"%string]};
              files := {["out/idx.log"%string :=
                          [Some (entry "train.jsonl" 110); Some (entry "dev.jsonl" 3)]]} |} in
  exists l1 s1,
    run_ops [Update 120; SetZero]
      {| log_path := "out/idx.log"; last_idx := 110;
         logs := [entry "dev.jsonl" 3; entry "train.jsonl" 110] |} s = Ok (l1, s1) /\
    NoDup (filenames (stored s1 (sidecar "out/train.jsonl"))).
Proof.
  intros s. apply (C5_unique_filenames s "out/train.jsonl").
  - vm_compute. apply NoDup_cons. split.
    + intros [=]%list_elem_of_singleton.
    + apply NoDup_singleton.
  - vm_compute. reflexivity.
Defined.

(** C6, as the specification states it, fails: a Log holds the records it
    read at construction and rewrites the whole file from them.  Two Logs
    are constructed in the empty directory [out/], for [a.jsonl] and for
    [b.jsonl]; after [update(5)] on the first and [update(7)] on the
    second, the sidecar holds the record of [b.jsonl] only, and a fresh Log
    for [a.jsonl] reads 0, not 5. *)
Lemma C6_counterexample :
  ('(la, s) ← __init__ os.empty "out/a.jsonl";
   '(lb, s) ← __init__ s "out/b.jsonl";
   '(la, s) ← update la 5 s;
   '(lb, s) ← update lb 7 s;
   '(la', _) ← __init__ s "out/a.jsonl";
   Ok (last_idx la', stored s "out/idx.log"))
  = Ok (0, [Some (entry "b.jsonl" 7)]).
Proof. vm_compute. reflexivity. Qed.

(** C6, amended (filename isolation).  For two output paths in the same
    directory with different filenames A and B: when the Log for B is
    constructed on the store that holds the index of A, every non-empty
    sequence of [update] and [set_zero] calls on the Log for B returns and
    leaves the index of A as it was; constructing either Log afterwards
    reads its own last written index. *)
Theorem C6_isolation s PA PB la sa lb sb opsB oB :
  sidecar PA = sidecar PB ->
  posixpath.basename PA <> posixpath.basename PB ->
  __init__ s PA = Ok (la, sa) ->
  __init__ s PB = Ok (lb, sb) ->
  exists lb1 s1,
    run_ops (opsB ++ [oB]) lb sb = Ok (lb1, s1) /\
    (exists la' sa', __init__ s1 PA = Ok (la', sa') /\ last_idx la' = last_idx la) /\
    (exists lb' sb', __init__ s1 PB = Ok (lb', sb') /\ last_idx lb' = written oB).
Proof.
  intros Hside Hne HA HB.
  set (A := posixpath.basename PA) in *. set (B := posixpath.basename PB) in *.
  destruct (init_inv _ _ _ _ HB) as (-> & HpB & others & HlB & HcaseB).
  destruct (init_inv _ _ _ _ HA) as (_ & _ & othersA & _ & HcaseA).
  assert (Forall (fun js => is_other B js = true) others) as Ho.
  { destruct HcaseB as [(_ & _ & ->)|(lines & _ & Hs)]; [constructor|].
    apply scan_inv in Hs as (entries & _ & _ & E & Hoth & _).
    simpl in E. by subst others. }
  destruct (run_ops_holds _ _ (opsB ++ [oB]) lb (prepared s PB) (conj HlB Ho))
    as (lb1 & s1 & Hrun & _ & [Hl1 _] & _ & Hlast).
  rewrite last_snoc in Hlast. destruct Hlast as [Hv Hf].
  rewrite Hl1, Hv, HpB in Hf.
  assert (files s1 !! sidecar PB
          = Some (Some <$> (others ++ [entry B (written oB)]))) as Hfile
    by (by rewrite Hf, lookup_insert_eq).
  exists lb1, s1. split; [done|]. split.
  - assert (exists logs,
              scan A (Some <$> (others ++ [entry B (written oB)])) 0 []
              = Ok (last_idx la, logs)) as [logs Hscan].
    { rewrite fmap_app, scan_app.
      assert (exists logs, scan A (Some <$> others) 0 [] = Ok (last_idx la, logs))
        as [logs ->].
      { destruct HcaseB as [(HnoB & _ & ->)|(lines & HfB & HsB)].
        - destruct HcaseA as [(_ & -> & _)|(lines & HfA & _)]; [by eexists|].
          apply path_exists_no_file in HnoB. rewrite <- Hside in HnoB. congruence.
        - destruct HcaseA as [(HnoA & _ & _)|(lines' & HfA & HsA)].
          { apply path_exists_no_file in HnoA. rewrite Hside in HnoA. congruence. }
          rewrite Hside in HfA. assert (lines' = lines) as -> by congruence.
          apply scan_inv in HsB as (entries & -> & _ & E & _).
          simpl in E. subst others. by eapply scan_without. }
      eexists. unfold mbind, result_bind.
      change (Some <$> [entry B (written oB)]) with [Some (entry B (written oB))].
      rewrite scan_cons. unfold entry at 1. simpl.
      destruct (String.eqb_spec B A) as [E|_]; [by rewrite E in Hne|].
      reflexivity. }
    eexists _, _. split.
    + eapply init_file; [by rewrite Hside | exact Hscan].
    + reflexivity.
  - eexists _, _. split.
    + by apply init_written.
    + reflexivity.
Qed.

Lemma C6_isolation_witness :
  let s := {| dirs := {["out"%string]};
              files := {["out/idx.log"%string := [Some (entry "a.jsonl" 5)]]} |} in
  exists lb1 s1,
    run_ops ([Update 3] ++ [Update 7])
      {| log_path := "out/idx.log"; last_idx := 0;
         logs := [entry "a.jsonl" 5; entry "b.jsonl" 0] |} s = Ok (lb1, s1) /\
    (exists la' sa', __init__ s1 "out/a.jsonl" = Ok (la', sa') /\ last_idx la' = 5) /\
    (exists lb' sb', __init__ s1 "out/b.jsonl" = Ok (lb', sb') /\ last_idx lb' = 7).
Proof.
  intros s.
  apply (C6_isolation s "out/a.jsonl" "out/b.jsonl"
           {| log_path := "out/idx.log"; last_idx := 5;
              logs := [entry "a.jsonl" 5] |} s).
  - vm_compute. reflexivity.
  - vm_compute. discriminate.
  - vm_compute. reflexivity.
  - vm_compute. reflexivity.
Defined.

End log_properties.

(** * Facts about [run_in_parallel] *)

Section parallel_facts.

Import functions.

(** *** Validation and broadcast *)

Lemma collect_lens_spec args acc :
  collect_lens args acc = acc ++ omap list_len args.
Proof.
  revert acc. induction args as [|arg args IH]; intros acc.
  - by rewrite app_nil_r.
  - destruct arg; simpl; rewrite IH; try done. by rewrite <- app_assoc.
Qed.

Lemma all_eq_first_spec l0 lens ls :
  all_eq_first (l0 :: lens) ls = Ok (forallb (fun l => l =? l0)%nat ls).
Proof.
  induction ls as [|l ls IH]; [done|]. simpl.
  change (index (l0 :: lens) 0) with (Ok (A:=nat) l0). simpl.
  destruct (l =? l0)%nat; [apply IH | done].
Qed.

Lemma broadcast_spec l0 lens args acc :
  broadcast args (l0 :: lens) acc = Ok (acc ++ (column l0 <$> args)).
Proof.
  revert acc. induction args as [|arg args IH]; intros acc.
  - by rewrite app_nil_r.
  - destruct arg; simpl; rewrite ?IH; simpl;
      change (index (l0 :: lens) 0) with (Ok (A:=nat) l0); simpl; rewrite ?IH;
      by rewrite <- app_assoc.
Qed.

Lemma broadcast_no_list arg args acc :
  is_list arg = false -> broadcast (arg :: args) [] acc = Raise IndexError.
Proof. by destruct arg. Qed.

Lemma omap_list_len_nil args :
  Forall (fun arg => is_list arg = false) args -> omap list_len args = [].
Proof. induction 1 as [|arg args H _ IH]; [done|]. by destruct arg. Qed.

(** *** The rows *)

Lemma zip_star_rows L cols :
  cols <> [] ->
  Forall (fun col => length col = L) cols ->
  zip_star cols = (fun i => tuple_at i cols) <$> seq 0 L.
Proof.
  intros Hne Hall. induction Hall as [|c cols Hc Hall IH]; [done|].
  destruct cols as [|c2 cols].
  - simpl. apply list_eq. intros i. rewrite !list_lookup_fmap.
    destruct (decide (i < L)%nat) as [Hi|Hi].
    + rewrite lookup_seq_lt by done. simpl.
      destruct (lookup_lt_is_Some_2 c i) as [x Hx]; [lia|]. by rewrite Hx.
    + rewrite lookup_seq_ge by lia. by rewrite lookup_ge_None_2 by lia.
  - change (zip_star (c :: c2 :: cols))
      with (zip_with cons c (zip_star (c2 :: cols))).
    rewrite IH by done. apply list_eq. intros i.
    rewrite lookup_zip_with, !list_lookup_fmap.
    destruct (decide (i < L)%nat) as [Hi|Hi].
    + rewrite lookup_seq_lt by done. simpl.
      destruct (lookup_lt_is_Some_2 c i) as [x Hx]; [lia|]. by rewrite Hx.
    + rewrite lookup_seq_ge by lia. by rewrite lookup_ge_None_2 by lia.
Qed.

Lemma column_length L arg :
  (forall xs, arg = VList xs -> length xs = L) -> length (column L arg) = L.
Proof. intros H. destruct arg; simpl; rewrite ?length_replicate; auto. Qed.

Lemma tuple_at_columns L args i :
  (i < L)%nat -> tuple_at i (column L <$> args) = row_at args i.
Proof.
  intros Hi. unfold tuple_at, row_at. rewrite <- list_fmap_compose.
  apply list_fmap_ext. intros _ arg _. simpl.
  destruct arg; simpl; try done; by rewrite lookup_replicate_2.
Qed.

Lemma rows_spec L args :
  args <> [] ->
  (forall xs, In (VList xs) args -> length xs = L) ->
  zip_star (column L <$> args) = row_at args <$> seq 0 L.
Proof.
  intros Hne Hlen. rewrite (zip_star_rows L).
  - apply list_eq. intros i. rewrite !list_lookup_fmap.
    destruct (decide (i < L)%nat) as [Hi|Hi].
    + rewrite lookup_seq_lt by done. simpl. by rewrite tuple_at_columns.
    + by rewrite lookup_seq_ge by lia.
  - by destruct args.
  - apply Forall_fmap, Forall_forall. intros arg Hin. simpl.
    apply column_length. intros xs ->. apply Hlen. by apply list_elem_of_In.
Qed.

(** *** The pool *)

Lemma omap_lookup_seq {A} (pre rows : list A) :
  omap (fun i => (pre ++ rows) !! i) (seq (length pre) (length rows)) = rows.
Proof.
  revert pre. induction rows as [|x rows IH]; intros pre; [done|].
  simpl. rewrite list_lookup_middle by done. f_equal.
  specialize (IH (pre ++ [x])). rewrite length_app in IH. simpl in IH.
  rewrite Nat.add_1_r, <- app_assoc in IH. exact IH.
Qed.

Lemma pool_inv_init func rows :
  pool_inv func rows
    {| pending := seq 0 (length rows);
       slots := replicate (length rows) None;
       trace := [] |}.
Proof.
  unfold pool_inv. simpl. split; [apply length_replicate|].
  split; [by intros i [_ ?]%elem_of_seq|]. split; [apply NoDup_seq|]. split.
  - intros i row Hi. apply lookup_lt_Some in Hi as Hlt.
    rewrite lookup_replicate_2 by done.
    rewrite bool_decide_eq_true_2; [done|]. apply elem_of_seq. lia.
  - pose proof (omap_lookup_seq [] rows) as H. simpl in H. by rewrite H.
Qed.

Lemma pool_inv_complete func rows n choice st :
  (0 < n)%nat ->
  pool_inv func rows st ->
  pending st <> [] ->
  pool_inv func rows (complete func rows n choice st) /\
  S (length (pending (complete func rows n choice st))) = length (pending st).
Proof.
  intros Hn (Hlen & Hlt & Hnd & Hslots & Htrace) Hne.
  unfold complete.
  assert (0 < length (pending st))%nat as Hp
    by (destruct (pending st); [done | simpl; lia]).
  destruct (n `min` length (pending st))%nat as [|w] eqn:Hw; [lia|].
  set (k := (choice mod S w)%nat).
  assert (k < length (pending st))%nat as Hk.
  { pose proof (Nat.mod_upper_bound choice (S w)). unfold k. lia. }
  destruct (lookup_lt_is_Some_2 _ _ Hk) as [i Hi]. rewrite Hi.
  assert (i ∈ pending st) as Hin by (by eapply list_elem_of_lookup_2).
  destruct (lookup_lt_is_Some_2 rows i (Hlt i Hin)) as [row Hrow]. rewrite Hrow.
  pose proof (delete_Permutation _ _ _ Hi) as Hperm.
  assert (NoDup (i :: delete k (pending st)))
    as [Hfresh Hnd']%NoDup_cons by (by rewrite <- Hperm).
  split; [|simpl; rewrite length_delete by eauto; lia].
  unfold pool_inv. simpl. split; [by rewrite length_insert|].
  split; [intros j Hj; apply Hlt; rewrite Hperm; by right|].
  split; [done|]. split.
  - intros j row' Hj. destruct (decide (j = i)) as [->|Hji].
    + rewrite list_lookup_insert_eq by (rewrite Hlen; by apply Hlt).
      rewrite bool_decide_eq_false_2 by done. congruence.
    + rewrite list_lookup_insert_ne by done. rewrite (Hslots j row' Hj).
      f_equal. rewrite (bool_decide_ext (j ∈ pending st)
                          (j ∈ delete k (pending st))); [reflexivity|].
      rewrite Hperm at 1. rewrite elem_of_cons.
      split; [by intros [?|?] | by right].
  - etrans; [|exact Htrace]. rewrite <- app_assoc. apply Permutation_app_head.
    symmetry. etrans; [apply omap_Permutation, Hperm|]. simpl. by rewrite Hrow.
Qed.

Lemma pool_inv_drain func rows n sched steps t st :
  (0 < n)%nat ->
  pool_inv func rows st ->
  length (pending st) = steps ->
  pool_inv func rows (drain func rows n sched steps t st) /\
  pending (drain func rows n sched steps t st) = [].
Proof.
  intros Hn. revert t st. induction steps as [|steps IH]; intros t st Hinv Hlen.
  - simpl. split; [done|]. by apply nil_length_inv.
  - simpl. assert (pending st <> []) as Hne by (intros E; by rewrite E in Hlen).
    destruct (pool_inv_complete func rows n (sched t) st Hn Hinv Hne) as [Hinv' Hl].
    apply IH; [done | lia].
Qed.

Lemma results_in_order_cons outcome slots :
  results_in_order (Some outcome :: slots) =
  match outcome with
  | Ok r =>
      match results_in_order slots with
      | Ok rs => Ok (r :: rs)
      | Raise e => Raise e
      end
  | Raise e => Raise e
  end.
Proof. reflexivity. Qed.

Lemma results_in_order_spec func rows results :
  Forall2 (fun row r => call func row = Ok r) rows results ->
  results_in_order ((fun row => Some (call func row)) <$> rows) = Ok results.
Proof.
  induction 1 as [|row r rows results Hr _ IH]; [done|].
  by rewrite fmap_cons, results_in_order_cons, Hr, IH.
Qed.

(** With at least one worker the pool calls [func] once on every row, in
    the order the scheduler chooses, and hands the outcomes back in the
    order of the rows. *)
Lemma executor_map_spec func rows n sched :
  (0 < n)%nat ->
  fst (executor_map func rows n sched)
    = results_in_order ((fun row => Some (call func row)) <$> rows) /\
  snd (executor_map func rows n sched) ≡ₚ rows.
Proof.
  intros Hn. unfold executor_map. simpl.
  destruct (pool_inv_drain func rows n sched (length rows) 0 _ Hn
              (pool_inv_init func rows)) as [Hinv Hdone].
  { simpl. apply length_seq. }
  destruct Hinv as (Hlen & _ & _ & Hslots & Htrace).
  rewrite Hdone in Hslots, Htrace. simpl in Htrace. rewrite app_nil_r in Htrace.
  split; [|done]. f_equal. apply list_eq. intros i.
  rewrite list_lookup_fmap. destruct (rows !! i) as [row|] eqn:Hrow.
  - by rewrite (Hslots i row Hrow).
  - simpl. apply lookup_ge_None. rewrite Hlen. by apply lookup_ge_None.
Qed.

(** *** The whole call *)

Lemma list_lens_all L args :
  (forall xs, In (VList xs) args -> length xs = L) ->
  Forall (fun l => l = L) (omap list_len args).
Proof.
  induction args as [|arg args IH]; intros H; [constructor|].
  assert (Forall (fun l => l = L) (omap list_len args)) as IH'
    by (apply IH; intros xs Hin; apply H; by right).
  destruct arg; try exact IH'.
  cbn. constructor; [|exact IH']. apply H. by left.
Qed.

Lemma list_lens_elem xs args :
  In (VList xs) args -> length xs ∈ omap list_len args.
Proof.
  intros Hin%list_elem_of_In. apply list_elem_of_omap.
  exists (VList xs). by split.
Qed.

(** A call with the right number of arguments, one of them a list. *)
Lemma run_in_parallel_lists func args n sched l0 lens :
  length args = co_argcount func ->
  omap list_len args = l0 :: lens ->
  run_in_parallel func args n sched =
  if forallb (fun l => l =? l0)%nat lens
  then if (n <=? 0) then (Raise ValueError, [])
       else executor_map func (zip_star (column l0 <$> args)) (Z.to_nat n) sched
  else (Raise ValueError, []).
Proof.
  intros Har Hlens. unfold run_in_parallel.
  rewrite Har, Nat.eqb_refl. cbn [negb].
  rewrite collect_lens_spec, app_nil_l, Hlens.
  rewrite all_eq_first_spec. cbn [forallb]. rewrite Nat.eqb_refl. cbn [andb].
  destruct (forallb (fun l => l =? l0)%nat lens); [|done].
  rewrite broadcast_spec, app_nil_l.
  destruct (n <=? 0); [done|].
  by destruct (executor_map func (zip_star (column l0 <$> args)) (Z.to_nat n) sched).
Qed.

End parallel_facts.

(** * The parallel map: the properties of the specification *)

Section parallel_properties.

Import functions.

(** C2 (order preservation, broadcast).  For a function of arity K called
    with K arguments, at least one of them a list and all lists of length
    L, on a pool of [n >= 1] workers and whatever the order in which the
    workers complete: when every invocation returns, [run_in_parallel]
    returns the list of the L results, the i-th being [func] applied to
    the i-th element of each list argument and to each scalar argument
    itself; [func] is invoked once on each of these L rows. *)
Theorem C2_ordered_results func args n sched L results :
  0 < n ->
  length args = co_argcount func ->
  (exists xs, In (VList xs) args) ->
  (forall xs, In (VList xs) args -> length xs = L) ->
  Forall2 (fun i r => call func (row_at args i) = Ok r) (seq 0 L) results ->
  fst (run_in_parallel func args n sched) = Ok results /\
  length results = L /\
  snd (run_in_parallel func args n sched) ≡ₚ row_at args <$> seq 0 L.
Proof.
  intros Hn Har [xs Hxs] Hlen Hres.
  pose proof (list_lens_all L args Hlen) as Hall.
  pose proof (list_lens_elem xs args Hxs) as Hel.
  destruct (omap list_len args) as [|l0 lens] eqn:Hlens;
    [by apply elem_of_nil in Hel|].
  apply Forall_cons in Hall as [-> Hall].
  rewrite (run_in_parallel_lists func args n sched L lens Har Hlens).
  assert (forallb (fun l => l =? L)%nat lens = true) as ->.
  { apply forallb_forall. intros l Hl%list_elem_of_In.
    rewrite Forall_forall in Hall. apply Nat.eqb_eq. by apply Hall. }
  assert ((n <=? 0) = false) as -> by (apply Z.leb_gt; lia).
  assert (args <> []) as Hne by (intros ->; destruct Hxs).
  rewrite (rows_spec L args Hne Hlen).
  destruct (executor_map_spec func (row_at args <$> seq 0 L) (Z.to_nat n) sched)
    as [Hfst Hsnd]; [lia|].
  rewrite Hfst. split; [|split; [|done]].
  - apply results_in_order_spec. by apply Forall2_fmap_l.
  - apply Forall2_length in Hres. by rewrite length_seq in Hres.
Qed.

Lemma C2_ordered_results_witness :
  let args := [examples.ints [1; 2; 3]; VInt 5] in
  let results := VInt <$> [6; 7; 8] in
  fst (run_in_parallel examples.add args 2 examples.youngest_first) = Ok results /\
  length results = 3%nat /\
  snd (run_in_parallel examples.add args 2 examples.youngest_first)
    ≡ₚ row_at args <$> seq 0 3.
Proof.
  intros args results.
  apply (C2_ordered_results examples.add args 2 examples.youngest_first 3 results).
  - lia.
  - reflexivity.
  - eexists. left. reflexivity.
  - intros xs [[= <-]|[[=]|[]]]. reflexivity.
  - repeat constructor.
Defined.

(** C4 (fail fast).  When the number of arguments differs from the
    declared positional parameter count of [func], or two list arguments
    have different lengths, the call raises [ValueError] and [func] has not
    been invoked. *)
Theorem C4_validation func args n sched :
  length args <> co_argcount func \/
  (exists xs ys, In (VList xs) args /\ In (VList ys) args /\
                 length xs <> length ys) ->
  run_in_parallel func args n sched = (Raise ValueError, []).
Proof.
  intros H.
  destruct (decide (length args = co_argcount func)) as [Har|Har].
  2:{ unfold run_in_parallel. apply Nat.eqb_neq in Har. by rewrite Har. }
  destruct H as [?|(xs & ys & Hxs & Hys & Hne)]; [done|].
  apply list_lens_elem in Hxs, Hys.
  destruct (omap list_len args) as [|l0 lens] eqn:Hlens;
    [by apply elem_of_nil in Hxs|].
  rewrite (run_in_parallel_lists func args n sched l0 lens Har Hlens).
  destruct (forallb (fun l => l =? l0)%nat lens) eqn:Hall; [|done].
  exfalso. apply Hne.
  assert (forall l, l ∈ l0 :: lens -> l = l0) as Heq.
  { intros l [->|Hl]%elem_of_cons; [done|].
    rewrite forallb_forall in Hall. apply Nat.eqb_eq, Hall.
    by apply list_elem_of_In. }
  by rewrite (Heq _ Hxs), (Heq _ Hys).
Qed.

Lemma C4_validation_witness :
  run_in_parallel examples.add [examples.ints [1; 2]; examples.ints [1; 2; 3]] 2
    examples.oldest_first
  = (Raise ValueError, []).
Proof.
  apply C4_validation. right.
  exists (VInt <$> [1; 2]), (VInt <$> [1; 2; 3]).
  split; [left; reflexivity|]. split; [right; left; reflexivity|].
  simpl. lia.
Defined.

(** C9 (no list argument).  A call with the right number of arguments,
    none of them a list, raises [IndexError] and [func] has not been
    invoked.  (With no argument at all the error comes after the pool is
    created, which needs [n >= 1].) *)
Theorem C9_no_list func args n sched :
  length args = co_argcount func ->
  Forall (fun arg => is_list arg = false) args ->
  args <> [] \/ 0 < n ->
  run_in_parallel func args n sched = (Raise IndexError, []).
Proof.
  intros Har Hno Hn. unfold run_in_parallel.
  rewrite Har, Nat.eqb_refl. cbn [negb].
  rewrite collect_lens_spec, app_nil_l, (omap_list_len_nil args Hno).
  cbn [all_eq_first].
  destruct Hno as [|arg args Harg _].
  - destruct Hn as [?|Hn]; [done|].
    assert ((n <=? 0) = false) as -> by (apply Z.leb_gt; lia). reflexivity.
  - by rewrite broadcast_no_list.
Qed.

Lemma C9_no_list_witness :
  run_in_parallel examples.add [VInt 1; VTuple [VInt 2; VInt 3]] 2
    examples.oldest_first
  = (Raise IndexError, []).
Proof.
  apply C9_no_list.
  - reflexivity.
  - repeat constructor.
  - left. discriminate.
Defined.

(** C10 (only lists are sequences).  In a call with the right number of
    arguments, one of them a list: the lengths that the consistency check
    compares are those of the list arguments and no others, and every other
    argument, a tuple or a string as well, is passed whole to each
    invocation.  The outcome is that of the pool on the rows built from the
    list arguments themselves and the repeated non-list arguments. *)
Theorem C10_only_lists_are_sequences func args n sched l0 lens :
  length args = co_argcount func ->
  omap list_len args = l0 :: lens ->
  collect_lens args [] = l0 :: lens /\
  (forall arg, In arg args -> is_list arg = false ->
     list_len arg = None /\ column l0 arg = replicate l0 arg) /\
  broadcast args (l0 :: lens) [] = Ok (column l0 <$> args) /\
  run_in_parallel func args n sched =
    if forallb (fun l => l =? l0)%nat lens
    then if (n <=? 0) then (Raise ValueError, [])
         else executor_map func (zip_star (column l0 <$> args)) (Z.to_nat n) sched
    else (Raise ValueError, []).
Proof.
  intros Har Hlens. split; [by rewrite collect_lens_spec|].
  split; [intros arg _ Harg; by destruct arg|].
  split; [by rewrite broadcast_spec|].
  by apply run_in_parallel_lists.
Qed.

Lemma C10_only_lists_are_sequences_witness :
  let args := [examples.ints [1; 2; 3]; VTuple [VInt 8; VInt 9]; VStr "ab"] in
  collect_lens args [] = [3%nat] /\
  (forall arg, In arg args -> is_list arg = false ->
     list_len arg = None /\ column 3 arg = replicate 3 arg) /\
  broadcast args [3%nat] [] = Ok (column 3 <$> args) /\
  run_in_parallel examples.pack args 2 examples.youngest_first =
    if forallb (fun l => l =? 3)%nat []
    then if (2 <=? 0) then (Raise ValueError, [])
         else executor_map examples.pack (zip_star (column 3 <$> args))
                (Z.to_nat 2) examples.youngest_first
    else (Raise ValueError, []).
Proof.
  intros args.
  apply (C10_only_lists_are_sequences examples.pack args 2
           examples.youngest_first 3 []); reflexivity.
Defined.

End parallel_properties.

(** * The examples of the specification *)

Section spec_examples.

Import functions examples.

Example split_train : posixpath.split "out/train.jsonl" = ("out", "train.jsonl").
Proof. reflexivity. Qed.

Example split_root : posixpath.split "/x" = ("/", "x").
Proof. reflexivity. Qed.

Example split_trailing : posixpath.split "a//b/" = ("a//b", "").
Proof. reflexivity. Qed.

Example sidecar_train : Log.sidecar "out/train.jsonl" = "out/idx.log".
Proof. reflexivity. Qed.

Example sidecar_cwd : Log.sidecar "train.jsonl" = "idx.log".
Proof. reflexivity. Qed.

Example int_of_str_underscore : builtins.int_of_str " -1_000 " = Ok (-1000).
Proof. reflexivity. Qed.

Example int_of_str_bad : builtins.int_of_str "1__0" = Raise ValueError.
Proof. reflexivity. Qed.

Example int_of_float_trunc :
  builtins.int_of_float (S754_finite true 7 (-1)) = Ok (-3).
Proof. reflexivity. Qed.

(** The scenario of the specification: run 1 calls [update(110)], run 2
    constructs a Log for the same path and reads 110. *)
Example scenario_resume :
  ('(l, s) ← Log.__init__ os.empty "out/train.jsonl";
   '(l, s) ← Log.update l 110 s;
   '(l', s') ← Log.__init__ s "out/train.jsonl";
   Ok (Log.last_idx l', Log.stored s' "out/idx.log"))
  = Ok (110, [Some (Log.entry "train.jsonl" 110)]).
Proof. vm_compute. reflexivity. Qed.

(** Two files of one directory, one Log after the other: both indices are
    kept. *)
Example sequential_logs :
  ('(la, s) ← Log.__init__ os.empty "out/a.jsonl";
   '(la, s) ← Log.update la 5 s;
   '(lb, s) ← Log.__init__ s "out/b.jsonl";
   '(lb, s) ← Log.update lb 7 s;
   '(la', _) ← Log.__init__ s "out/a.jsonl";
   '(lb', _) ← Log.__init__ s "out/b.jsonl";
   Ok (Log.last_idx la', Log.last_idx lb', Log.stored s "out/idx.log"))
  = Ok (5, 7, [Some (Log.entry "a.jsonl" 5); Some (Log.entry "b.jsonl" 7)]).
Proof. vm_compute. reflexivity. Qed.

(** A malformed line, a record without filename and an index that is not
    a number make construction fail. *)
Example malformed_line :
  Log.__init__ {| os.dirs := ∅; os.files := {["idx.log"%string := [None]]} |}
    "train.jsonl" = Raise JSONDecodeError.
Proof. vm_compute. reflexivity. Qed.

Example no_filename :
  Log.__init__
    {| os.dirs := ∅;
       os.files := {["idx.log"%string := [Some (JDict [("idx"%string, JInt 1)])]]} |}
    "train.jsonl" = Raise KeyError.
Proof. vm_compute. reflexivity. Qed.

Example bad_index :
  Log.__init__
    {| os.dirs := ∅;
       os.files :=
         {["idx.log"%string :=
             [Some (JDict [("filename"%string, JStr "train.jsonl");
                           ("idx"%string, JStr "ten")])]]} |}
    "train.jsonl" = Raise ValueError.
Proof. vm_compute. reflexivity. Qed.

(** P5 and P6 of the specification, under two schedulers. *)
Example P5_youngest_first :
  fst (run_in_parallel add [ints [1; 2; 3]; ints [10; 20; 30]] 2 youngest_first)
  = Ok (VInt <$> [11; 22; 33]).
Proof. vm_compute. reflexivity. Qed.

Example P5_completion_order :
  snd (run_in_parallel add [ints [1; 2; 3]; ints [10; 20; 30]] 2 youngest_first)
  = [[VInt 2; VInt 20]; [VInt 3; VInt 30]; [VInt 1; VInt 10]].
Proof. vm_compute. reflexivity. Qed.

Example P6_broadcast :
  fst (run_in_parallel add [ints [1; 2; 3]; VInt 5] 4 oldest_first)
  = Ok (VInt <$> [6; 7; 8]).
Proof. vm_compute. reflexivity. Qed.

Example P7_length_mismatch :
  run_in_parallel add [ints [1; 2]; ints [1; 2; 3]] 2 oldest_first
  = (Raise ValueError, []).
Proof. vm_compute. reflexivity. Qed.

Example P8_arity_mismatch :
  run_in_parallel add [ints [1; 2]] 2 oldest_first = (Raise ValueError, []).
Proof. vm_compute. reflexivity. Qed.

(** A tuple of two elements and a string next to a list of three. *)
Example tuple_and_string_whole :
  fst (run_in_parallel pack
         [ints [1; 2; 3]; VTuple [VInt 8; VInt 9]; VStr "ab"] 2 youngest_first)
  = Ok [VTuple [VInt 1; VTuple [VInt 8; VInt 9]; VStr "ab"];
        VTuple [VInt 2; VTuple [VInt 8; VInt 9]; VStr "ab"];
        VTuple [VInt 3; VTuple [VInt 8; VInt 9]; VStr "ab"]].
Proof. vm_compute. reflexivity. Qed.

Example no_worker :
  run_in_parallel add [ints [1; 2]; ints [3; 4]] 0 oldest_first
  = (Raise ValueError, []).
Proof. vm_compute. reflexivity. Qed.

End spec_examples.

(** * More about [Log] *)

Section log_more.

Import builtins os Log Log_more.

Lemma scan_readable b lines i acc :
  (exists r, scan b lines i acc = Ok r) <-> forallb (readable b) lines = true.
Proof.
  revert i acc. induction lines as [|ln lines IH]; intros i acc.
  - simpl. split; [done | by eexists].
  - destruct ln as [js|]; [|split; [by intros [r H] | done]].
    rewrite scan_cons. cbn [forallb readable].
    destruct (getitem js "filename") as [name|]; [|split; [by intros [r H] | done]].
    destruct (eq_str name b); [|apply IH].
    destruct (getitem js "idx") as [v|]; [|split; [by intros [r H] | done]].
    destruct (int v); [apply IH | split; [by intros [r H] | done]].
Qed.

(** Reading the file of [A] from what a Log for [B], constructed on the
    store [s], writes: the index is the one [A] has in [s]. *)
Lemma scan_after_other s PA PB la sa lb sb :
  sidecar PA = sidecar PB ->
  posixpath.basename PA <> posixpath.basename PB ->
  __init__ s PA = Ok (la, sa) ->
  __init__ s PB = Ok (lb, sb) ->
  exists others,
    holds (posixpath.basename PB) others lb /\
    forall v, exists logs,
      scan (posixpath.basename PA)
        (Some <$> (others ++ [entry (posixpath.basename PB) v])) 0 []
      = Ok (last_idx la, logs).
Proof.
  intros Hside Hne HA HB.
  destruct (init_inv _ _ _ _ HB) as (_ & _ & others & HlB & HcaseB).
  destruct (init_inv _ _ _ _ HA) as (_ & _ & othersA & _ & HcaseA).
  assert (Forall (fun js => is_other (posixpath.basename PB) js = true) others)
    as Ho.
  { destruct HcaseB as [(_ & _ & ->)|(lines & _ & Hs)]; [constructor|].
    apply scan_inv in Hs as (entries & _ & _ & E & Hoth & _).
    simpl in E. by subst others. }
  exists others. split; [by split|]. intros v.
  rewrite fmap_app, scan_app.
  assert (exists logs, scan (posixpath.basename PA) (Some <$> others) 0 []
                       = Ok (last_idx la, logs)) as [logs ->].
  { destruct HcaseB as [(HnoB & _ & ->)|(lines & HfB & HsB)].
    - destruct HcaseA as [(_ & -> & _)|(lines & HfA & _)]; [by eexists|].
      apply path_exists_no_file in HnoB. rewrite <- Hside in HnoB. congruence.
    - destruct HcaseA as [(HnoA & _ & _)|(lines' & HfA & HsA)].
      { apply path_exists_no_file in HnoA. rewrite Hside in HnoA. congruence. }
      rewrite Hside in HfA. assert (lines' = lines) as -> by congruence.
      apply scan_inv in HsB as (entries & -> & _ & E & _).
      simpl in E. subst others. by eapply scan_without. }
  eexists. unfold mbind, result_bind.
  change (Some <$> [entry (posixpath.basename PB) v])
    with [Some (entry (posixpath.basename PB) v)].
  rewrite scan_cons. unfold entry at 1. simpl.
  destruct (String.eqb_spec (posixpath.basename PB) (posixpath.basename PA))
    as [E|_]; [by rewrite E in Hne|].
  reflexivity.
Qed.

(** X1 (what a rewrite writes).  After constructing a Log for [P] and any
    non-empty sequence of [update] and [set_zero] calls, the sidecar holds
    the records that the original sidecar had for other filenames, in
    their order, followed by one record for [basename(P)] with the index of
    the last call; no other file of the store has changed. *)
Theorem log_rewrite_content s P l s0 ops o :
  __init__ s P = Ok (l, s0) ->
  exists l1 s1 entries,
    run_ops (ops ++ [o]) l s0 = Ok (l1, s1) /\
    stored s (sidecar P) = Some <$> entries /\
    stored s1 (sidecar P)
      = Some <$> (List.filter (is_other (posixpath.basename P)) entries
                   ++ [entry (posixpath.basename P) (written o)]) /\
    (forall p, p <> sidecar P -> files s1 !! p = files s !! p).
Proof.
  intros Hinit.
  destruct (init_inv _ _ _ _ Hinit) as (-> & Hp & others & Hl & Hcase).
  assert (exists entries,
            stored s (sidecar P) = Some <$> entries /\
            others = List.filter (is_other (posixpath.basename P)) entries /\
            Forall (fun js => is_other (posixpath.basename P) js = true) others)
    as (entries & Hst & Hoth & Ho).
  { destruct Hcase as [(Hno & _ & ->)|(lines & Hf & Hs)].
    - exists []. apply path_exists_no_file in Hno. unfold stored. rewrite Hno.
      by repeat split.
    - apply scan_inv in Hs as (entries & -> & _ & E & Hoth & _).
      simpl in E. exists entries. unfold stored. rewrite Hf. subst others.
      by repeat split. }
  destruct (run_ops_holds _ _ (ops ++ [o]) l (prepared s P) (conj Hl Ho))
    as (l1 & s1 & Hrun & _ & [Hl1 _] & _ & Hlast).
  rewrite last_snoc in Hlast. destruct Hlast as [Hv Hf].
  exists l1, s1, entries. split; [done|]. split; [done|]. split.
  - unfold stored. rewrite Hf, Hp, lookup_insert_eq, Hl1, Hv, Hoth. done.
  - intros p Hne. rewrite Hf, Hp, lookup_insert_ne by done.
    by rewrite prepared_files.
Qed.

Lemma log_rewrite_content_witness :
  exists l1 s1 entries,
    run_ops ([Update 120] ++ [SetZero])
      {| log_path := "out/idx.log"; last_idx := 110;
         logs := [entry "dev.jsonl" 3; entry "train.jsonl" 110] |}
      (prepared examples.out_dir "out/train.jsonl") = Ok (l1, s1) /\
    stored examples.out_dir (sidecar "out/train.jsonl") = Some <$> entries /\
    stored s1 (sidecar "out/train.jsonl")
      = Some <$> (List.filter (is_other (posixpath.basename "out/train.jsonl")) entries
                   ++ [entry (posixpath.basename "out/train.jsonl") (written SetZero)]) /\
    (forall p, p <> sidecar "out/train.jsonl" ->
       files s1 !! p = files examples.out_dir !! p).
Proof.
  apply (log_rewrite_content examples.out_dir "out/train.jsonl").
  vm_compute. reflexivity.
Defined.

(** X2 (the last call wins).  On a constructed Log, and whatever the
    store holds by then, a sequence of [update] and [set_zero] calls leaves
    the Log and the store as its last call alone would. *)
Theorem log_last_call_wins s P l s0 ops o s2 :
  __init__ s P = Ok (l, s0) ->
  run_ops (ops ++ [o]) l s2 = run_op o l s2.
Proof.
  intros [_ [others H]]%init_holds.
  destruct (run_ops_holds _ _ (ops ++ [o]) l s2 H)
    as (l1 & s1 & -> & Hp & [Hl1 _] & Hd & Hlast).
  rewrite last_snoc in Hlast. destruct Hlast as [Hv Hf].
  rewrite (run_op_holds _ _ _ o s2 H).
  destruct l1 as [p1 i1 logs1], s1 as [d1 f1]. simpl in *.
  by subst.
Qed.

Lemma log_last_call_wins_witness :
  run_ops ([Update 5; SetZero] ++ [Update 9])
    {| log_path := "out/idx.log"; last_idx := 0; logs := [entry "train.jsonl" 0] |}
    examples.out_dir
  = run_op (Update 9)
      {| log_path := "out/idx.log"; last_idx := 0; logs := [entry "train.jsonl" 0] |}
      examples.out_dir.
Proof.
  apply (log_last_call_wins os.empty "out/train.jsonl" _
           (prepared os.empty "out/train.jsonl")).
  vm_compute. reflexivity.
Defined.

(** X3 (when construction returns).  Constructing a Log for [P] returns
    exactly when the sidecar does not exist, or it is a file in which every
    line parses to an object with a ["filename"] and every record of
    [basename(P)] has an ["idx"] that [int] accepts; the records of other
    files need no ["idx"]. *)
Theorem log_init_returns_iff s P :
  (exists l s', __init__ s P = Ok (l, s')) <->
  path_exists s (sidecar P) = false \/
  exists lines,
    files s !! sidecar P = Some lines /\
    forallb (readable (posixpath.basename P)) lines = true.
Proof.
  split.
  - intros (l & s' & (_ & _ & others & _ & Hcase)%init_inv).
    destruct Hcase as [(Hno & _)|(lines & Hf & Hs)]; [by left|].
    right. exists lines. split; [done|].
    apply (proj1 (scan_readable _ _ 0 [])). by eexists.
  - intros [Hno|(lines & Hf & Hr)].
    + eexists _, _. by apply init_no_file.
    + apply (proj2 (scan_readable _ _ 0 [])) in Hr as [[i logs] Hs].
      eexists _, _. by eapply init_file.
Qed.

Lemma log_init_returns_iff_witness :
  exists l s', __init__ examples.out_dir "out/train.jsonl" = Ok (l, s').
Proof.
  apply (proj2 (log_init_returns_iff examples.out_dir "out/train.jsonl")).
  right. eexists. split; vm_compute; reflexivity.
Defined.

(** X4 (construction only reads).  A construction that returns has
    changed no file, and constructing again for the same path on the
    resulting store returns the same Log. *)
Theorem log_init_repeatable s P l s' :
  __init__ s P = Ok (l, s') ->
  files s' = files s /\ exists s'', __init__ s' P = Ok (l, s'').
Proof.
  intros Hinit.
  destruct (init_inv _ _ _ _ Hinit) as (-> & Hp & others & Hl & Hcase).
  split; [apply prepared_files|].
  destruct l as [p i logs]. simpl in *. subst p logs.
  destruct Hcase as [(Hno & -> & ->)|(lines & Hf & Hs)].
  - eexists. apply init_no_file. by rewrite prepared_sidecar.
  - eexists. eapply init_file; [by rewrite prepared_files | done].
Qed.

Lemma log_init_repeatable_witness :
  let l := {| log_path := "out/idx.log"; last_idx := 110;
              logs := [entry "dev.jsonl" 3; entry "train.jsonl" 110] |} in
  files examples.out_dir = files examples.out_dir /\
  exists s'', __init__ examples.out_dir "out/train.jsonl" = Ok (l, s'').
Proof.
  apply (log_init_repeatable examples.out_dir "out/train.jsonl").
  vm_compute. reflexivity.
Defined.

(** X5 (a stale Log loses the other file's update).  Two Logs for
    different filenames of one directory are constructed on the same
    store.  When the first is updated and then the second, both calls
    return, and a fresh Log for the first filename reads the index that the
    store had for it before either call: what the first call wrote is
    gone. *)
Theorem log_stale_overwrite s PA PB la sa lb sb oA oB :
  sidecar PA = sidecar PB ->
  posixpath.basename PA <> posixpath.basename PB ->
  __init__ s PA = Ok (la, sa) ->
  __init__ s PB = Ok (lb, sb) ->
  exists la1 s1 lb1 s2,
    run_op oA la sb = Ok (la1, s1) /\
    run_op oB lb s1 = Ok (lb1, s2) /\
    exists la' sa', __init__ s2 PA = Ok (la', sa') /\ last_idx la' = last_idx la.
Proof.
  intros Hside Hne HA HB.
  destruct (init_holds _ _ _ _ HA) as [HpA [othersA HhA]].
  destruct (init_holds _ _ _ _ HB) as [HpB _].
  destruct (scan_after_other _ _ _ _ _ _ _ Hside Hne HA HB)
    as (others & HhB & Hscan).
  eexists _, _, _, _. split; [apply (run_op_holds _ _ _ oA sb HhA)|].
  split; [apply (run_op_holds _ _ _ oB _ HhB)|].
  destruct (Hscan (written oB)) as [logs Hs].
  eexists _, _. split.
  - eapply init_file; [|exact Hs]. simpl.
    by rewrite HpB, Hside, lookup_insert_eq.
  - reflexivity.
Qed.

Lemma log_stale_overwrite_witness :
  let la := {| log_path := "out/idx.log"; last_idx := 0;
               logs := [entry "a.jsonl" 0] |} in
  let lb := {| log_path := "out/idx.log"; last_idx := 0;
               logs := [entry "b.jsonl" 0] |} in
  exists la1 s1 lb1 s2,
    run_op (Update 5) la (prepared os.empty "out/b.jsonl") = Ok (la1, s1) /\
    run_op (Update 7) lb s1 = Ok (lb1, s2) /\
    exists la' sa', __init__ s2 "out/a.jsonl" = Ok (la', sa') /\ last_idx la' = 0.
Proof.
  intros la lb.
  apply (log_stale_overwrite os.empty "out/a.jsonl" "out/b.jsonl" la
           (prepared os.empty "out/a.jsonl") lb).
  - vm_compute. reflexivity.
  - vm_compute. discriminate.
  - vm_compute. reflexivity.
  - vm_compute. reflexivity.
Defined.

End log_more.

(** * More about [run_in_parallel] *)

Section parallel_more.

Import functions.

Lemma results_in_order_first_raise func rows1 oks row e rest :
  Forall2 (fun row r => call func row = Ok r) rows1 oks ->
  call func row = Raise e ->
  results_in_order ((fun row => Some (call func row)) <$> (rows1 ++ row :: rest))
  = Raise e.
Proof.
  intros Hok He. induction Hok as [|row1 r rows1 oks Hr _ IH].
  - by rewrite app_nil_l, fmap_cons, results_in_order_cons, He.
  - by rewrite <- app_comm_cons, fmap_cons, results_in_order_cons, Hr, IH.
Qed.

(** With one worker the pool takes the rows in their order. *)
Lemma drain_one_worker func rows sched steps t st a :
  pending st = seq a steps ->
  (a + steps <= length rows)%nat ->
  trace (drain func rows 1 sched steps t st)
  = trace st ++ take steps (drop a rows).
Proof.
  revert t st a. induction steps as [|steps IH]; intros t st a Hp Hlen.
  - simpl. by rewrite app_nil_r.
  - cbn [drain]. destruct (lookup_lt_is_Some_2 rows a) as [row Hrow]; [lia|].
    assert (complete func rows 1 (sched t) st
            = {| pending := seq (S a) steps;
                 slots := <[a := Some (call func row)]> (slots st);
                 trace := trace st ++ [row] |}) as ->.
    { unfold complete. rewrite Hp. cbn [length seq Nat.min].
      rewrite Nat.mod_1_r. cbn. by rewrite Hrow. }
    rewrite (IH _ _ (S a)); [|reflexivity|lia]. cbn [trace].
    rewrite <- app_assoc. f_equal.
    rewrite (drop_S _ _ _ Hrow). done.
Qed.

(** X6 (a failing invocation).  In a call with the right number of
    arguments, one of them a list and all lists of length L, on a pool of
    [n >= 1] workers: when [func] returns on the rows before row [i] and
    raises on row [i], the call raises that exception, whatever the order in
    which the workers complete and whatever [func] does on the later
    rows. *)
Theorem parallel_first_failure func args n sched L i oks e :
  0 < n ->
  length args = co_argcount func ->
  (exists xs, In (VList xs) args) ->
  (forall xs, In (VList xs) args -> length xs = L) ->
  (i < L)%nat ->
  Forall2 (fun j r => call func (row_at args j) = Ok r) (seq 0 i) oks ->
  call func (row_at args i) = Raise e ->
  fst (run_in_parallel func args n sched) = Raise e.
Proof.
  intros Hn Har [xs Hxs] Hlen Hi Hok He.
  pose proof (list_lens_all L args Hlen) as Hall.
  pose proof (list_lens_elem xs args Hxs) as Hel.
  destruct (omap list_len args) as [|l0 lens] eqn:Hlens;
    [by apply elem_of_nil in Hel|].
  apply Forall_cons in Hall as [-> Hall].
  rewrite (run_in_parallel_lists func args n sched L lens Har Hlens).
  assert (forallb (fun l => l =? L)%nat lens = true) as ->.
  { apply forallb_forall. intros l Hl%list_elem_of_In.
    rewrite Forall_forall in Hall. apply Nat.eqb_eq. by apply Hall. }
  assert ((n <=? 0) = false) as -> by (apply Z.leb_gt; lia).
  assert (args <> []) as Hne by (intros ->; destruct Hxs).
  rewrite (rows_spec L args Hne Hlen).
  destruct (executor_map_spec func (row_at args <$> seq 0 L) (Z.to_nat n) sched)
    as [-> _]; [lia|].
  replace L with (i + S (L - S i))%nat by lia.
  rewrite seq_app, fmap_app. cbn [seq fmap list_fmap].
  apply (results_in_order_first_raise func _ oks); [|done].
  by apply Forall2_fmap_l.
Qed.

Lemma parallel_first_failure_witness :
  fst (run_in_parallel examples.add
         [examples.ints [1; 2; 3]; VList [VInt 10; VStr "x"; VNone]] 2
         examples.youngest_first)
  = Raise TypeError.
Proof.
  apply (parallel_first_failure examples.add _ 2 examples.youngest_first 3 1
           [VInt 11] TypeError).
  - lia.
  - reflexivity.
  - eexists. left. reflexivity.
  - intros xs [[= <-]|[[= <-]|[]]]; reflexivity.
  - lia.
  - repeat constructor.
  - reflexivity.
Defined.

(** X7 (one worker).  With [n = 1] and every invocation returning, [func]
    is called on the rows in input order, one after the other, under every
    scheduler. *)
Theorem parallel_one_worker_in_order func args sched L results :
  length args = co_argcount func ->
  (exists xs, In (VList xs) args) ->
  (forall xs, In (VList xs) args -> length xs = L) ->
  Forall2 (fun i r => call func (row_at args i) = Ok r) (seq 0 L) results ->
  run_in_parallel func args 1 sched = (Ok results, row_at args <$> seq 0 L).
Proof.
  intros Har [xs Hxs] Hlen Hres.
  pose proof (list_lens_all L args Hlen) as Hall.
  pose proof (list_lens_elem xs args Hxs) as Hel.
  destruct (omap list_len args) as [|l0 lens] eqn:Hlens;
    [by apply elem_of_nil in Hel|].
  apply Forall_cons in Hall as [-> Hall].
  rewrite (run_in_parallel_lists func args 1 sched L lens Har Hlens).
  assert (forallb (fun l => l =? L)%nat lens = true) as ->.
  { apply forallb_forall. intros l Hl%list_elem_of_In.
    rewrite Forall_forall in Hall. apply Nat.eqb_eq. by apply Hall. }
  cbn [Z.leb Z.compare].
  assert (args <> []) as Hne by (intros ->; destruct Hxs).
  rewrite (rows_spec L args Hne Hlen).
  set (rows := row_at args <$> seq 0 L).
  destruct (executor_map_spec func rows (Z.to_nat 1) sched) as [Hfst _]; [lia|].
  rewrite (surjective_pairing (executor_map func rows (Z.to_nat 1) sched)).
  rewrite Hfst. f_equal.
  - apply results_in_order_spec. by apply Forall2_fmap_l.
  - unfold executor_map. cbn [snd].
    rewrite (drain_one_worker func rows sched (length rows) 0 _ 0);
      [|done|simpl; lia].
    cbn [trace app]. by rewrite drop_0, firstn_all.
Qed.

Lemma parallel_one_worker_in_order_witness :
  let args := [examples.ints [1; 2; 3]; VInt 5] in
  run_in_parallel examples.add args 1 examples.youngest_first
  = (Ok (VInt <$> [6; 7; 8]), row_at args <$> seq 0 3).
Proof.
  intros args.
  apply (parallel_one_worker_in_order examples.add args
           examples.youngest_first 3).
  - reflexivity.
  - eexists. left. reflexivity.
  - intros xs [[= <-]|[[=]|[]]]. reflexivity.
  - repeat constructor.
Defined.

(** X8 (no worker).  In a call that passes both checks, a pool size
    [n <= 0] makes the call raise [ValueError]; [func] is not invoked. *)
Theorem parallel_no_worker func args n sched L :
  n <= 0 ->
  length args = co_argcount func ->
  (exists xs, In (VList xs) args) ->
  (forall xs, In (VList xs) args -> length xs = L) ->
  run_in_parallel func args n sched = (Raise ValueError, []).
Proof.
  intros Hn Har [xs Hxs] Hlen.
  pose proof (list_lens_all L args Hlen) as Hall.
  pose proof (list_lens_elem xs args Hxs) as Hel.
  destruct (omap list_len args) as [|l0 lens] eqn:Hlens;
    [by apply elem_of_nil in Hel|].
  rewrite (run_in_parallel_lists func args n sched l0 lens Har Hlens).
  destruct (forallb (fun l => l =? l0)%nat lens); [|done].
  assert ((n <=? 0) = true) as -> by (apply Z.leb_le; lia). done.
Qed.

Lemma parallel_no_worker_witness :
  run_in_parallel examples.add [examples.ints [1; 2]; VInt 5] (-3)
    examples.oldest_first
  = (Raise ValueError, []).
Proof.
  apply (parallel_no_worker examples.add _ (-3) examples.oldest_first 2).
  - lia.
  - reflexivity.
  - eexists. left. reflexivity.
  - intros xs [[= <-]|[[=]|[]]]. reflexivity.
Defined.

End parallel_more.

(** * [get_child] *)

Section get_child_properties.

Import functions_more.

Lemma walk_none indices attribute : fst (walk PNone indices attribute) = PNone.
Proof. by destruct indices. Qed.

Lemma walk_app obj p q attribute :
  fst (walk obj (p ++ q) attribute)
  = fst (walk (fst (walk obj p attribute)) q attribute).
Proof.
  revert obj. induction p as [|index p IH]; intros obj; [done|].
  cbn [app walk]. destruct (getattr obj attribute) as [children|].
  - destruct (subscript children index) as [child|]; [apply IH|].
    cbn [fst]. by rewrite walk_none.
  - cbn [fst]. by rewrite walk_none.
Qed.

(** X9 (paths compose).  Following a path is following its first part and
    then, from the node reached, the rest; this holds also when the first
    part fails, since from [None] every path gives [None]. *)
Theorem get_child_compose obj p q attribute :
  fst (get_child obj (Indices (p ++ q)) attribute)
  = fst (get_child (fst (get_child obj (Indices p) attribute)) (Indices q)
           attribute).
Proof. apply walk_app. Qed.

(** X10 (bounds of one step).  On a node whose attribute holds [n]
    children, an index [i] with [-n <= i < n] gives the child at position
    [i mod n] (a negative index counts from the end) and logs nothing;
    any other index gives [None] and logs one warning.  No index makes the
    call raise. *)
Theorem get_child_bounds obj attribute children i :
  getattr obj attribute = Some children ->
  let n := Z.of_nat (length children) in
  (- n <= i < n ->
     exists child,
       children !! Z.to_nat (i mod n) = Some child /\
       get_child obj (OneIndex i) attribute = (child, [])) /\
  (i < - n \/ n <= i ->
     get_child obj (OneIndex i) attribute = (PNone, [LogWarning i])).
Proof.
  intros Hattr n. unfold get_child. cbn [walk]. rewrite Hattr.
  unfold subscript. fold n. split.
  - intros Hi. destruct (Z.leb_spec 0 i) as [Hpos|Hneg].
    + rewrite Z.mod_small by lia.
      destruct (lookup_lt_is_Some_2 children (Z.to_nat i)) as [child Hc]; [lia|].
      exists child. by rewrite Hc.
    + destruct (Z.leb_spec (- n) i) as [_|?]; [|lia].
      replace (i mod n) with (n + i).
      2:{ apply Z.mod_unique with (q := -1); lia. }
      destruct (lookup_lt_is_Some_2 children (Z.to_nat (n + i))) as [child Hc];
        [lia|].
      exists child. by rewrite Hc.
  - intros Hi. destruct (Z.leb_spec 0 i) as [Hpos|Hneg].
    + by rewrite lookup_ge_None_2 by lia.
    + destruct (Z.leb_spec (- n) i) as [?|_]; [lia|done].
Qed.


Lemma get_child_bounds_witness :
  let children := [examples_more.leaf; examples_more.inner; PNone] in
  let n := Z.of_nat (length children) in
  (- n <= -2 < n ->
     exists child,
       children !! Z.to_nat (-2 mod n) = Some child /\
       get_child examples_more.root (OneIndex (-2)) "children" = (child, [])) /\
  (-2 < - n \/ n <= -2 ->
     get_child examples_more.root (OneIndex (-2)) "children"
     = (PNone, [LogWarning (-2)])).
Proof. apply (get_child_bounds examples_more.root "children"). reflexivity. Defined.

Example get_child_last :
  get_child examples_more.root (OneIndex (-1)) "children" = (PNone, []).
Proof. reflexivity. Qed.

Example get_child_path :
  get_child examples_more.root (Indices [1; -1]) "children"
  = (examples_more.leaf, []).
Proof. reflexivity. Qed.

Example get_child_out_of_range :
  get_child examples_more.root (Indices [1; 1; 0]) "children"
  = (PNone, [LogWarning 1]).
Proof. reflexivity. Qed.

Example get_child_no_attribute :
  get_child examples_more.root (Indices [0]) "named_children"
  = (PNone, [LogException]).
Proof. reflexivity. Qed.

End get_child_properties.

(** * [retry] *)

Section retry_properties.

Import functions decorators.

Lemma calls_app ev1 ev2 : calls (ev1 ++ ev2) = (calls ev1 + calls ev2)%nat.
Proof. unfold calls. by rewrite List.filter_app, length_app. Qed.

Lemma sleeps_app ev1 ev2 : sleeps (ev1 ++ ev2) = sleeps ev1 ++ sleeps ev2.
Proof. apply omap_app. Qed.

(** The first [m] invocations raise exceptions and more attempts are
    allowed: the loop goes through [m] rounds of call, report and sleep. *)
Lemma retry_loop_failures func retries delay m todo k :
  (forall j, (k <= j < k + m)%nat -> exists e, func j = Raised (Exc e)) ->
  Z.of_nat (k + m) < retries ->
  (m <= todo)%nat ->
  exists rounds,
    calls rounds = m /\ sleeps rounds = replicate m delay /\
    retry_loop func retries delay todo k
    = (fst (retry_loop func retries delay (todo - m) (k + m)),
       rounds ++ snd (retry_loop func retries delay (todo - m) (k + m))).
Proof.
  revert todo k. induction m as [|m IH]; intros todo k Hfail Hlt Hle.
  - exists []. rewrite Nat.sub_0_r, Nat.add_0_r. repeat split.
    by destruct (retry_loop func retries delay todo k).
  - destruct todo as [|todo]; [lia|].
    destruct (Hfail k) as [e He]; [lia|].
    destruct (IH todo (S k)) as (rounds & Hc & Hs & Hloop).
    { intros j Hj. apply Hfail. lia. }
    { lia. }
    { lia. }
    exists ([Called; Printed (Running (Z.of_nat (S k)));
             Printed (ErrorRetrying e); Slept delay] ++ rounds).
    split; [by rewrite calls_app, Hc|].
    split; [by rewrite sleeps_app, Hs|].
    cbn [retry_loop app]. rewrite He.
    assert ((Z.of_nat (S k) =? retries) = false) as -> by (apply Z.eqb_neq; lia).
    rewrite Hloop. replace (S k + m)%nat with (k + S m)%nat by lia.
    by replace (S todo - S m)%nat with (todo - m)%nat by lia.
Qed.

(** X11 (the first success is returned).  With [retries >= 1] and
    [delay > 0], when the first [k] invocations raise exceptions and the
    next one returns [v], with [k < retries]: the wrapper returns [v], having
    called the function [k + 1] times and slept [delay] after each of the
    [k] failures. *)
Theorem retry_returns_first_success func retries delay k v :
  1 <= retries ->
  (0 < delay)%Q ->
  Z.of_nat k < retries ->
  (forall j, (j < k)%nat -> exists e, func j = Raised (Exc e)) ->
  func k = Returned v ->
  exists wrapper,
    retry retries delay = Ok wrapper /\
    fst (wrapper func) = Returned v /\
    calls (snd (wrapper func)) = S k /\
    sleeps (snd (wrapper func)) = replicate k delay.
Proof.
  intros Hr Hd Hk Hfail Hok.
  exists (fun func => retry_wrapper func retries delay). split.
  { unfold retry. assert ((retries <? 1) = false) as -> by (apply Z.ltb_ge; lia).
    destruct (Qle_bool delay 0) eqn:Hq; [|done].
    apply Qle_bool_iff in Hq. exfalso. by apply (Qlt_not_le _ _ Hd). }
  unfold retry_wrapper.
  destruct (retry_loop_failures func retries delay k (Z.to_nat retries) 0)
    as (rounds & Hc & Hs & ->).
  { intros j Hj. apply Hfail. lia. }
  { simpl. lia. }
  { lia. }
  cbn [plus]. destruct (Z.to_nat retries - k)%nat as [|todo] eqn:Htodo; [lia|].
  cbn [retry_loop]. rewrite Hok. cbn [fst snd].
  split; [done|]. rewrite calls_app, sleeps_app, Hc, Hs.
  split; [unfold calls; simpl; lia | by rewrite app_nil_r].
Qed.

Lemma retry_returns_first_success_witness :
  exists wrapper,
    retry 3 1 = Ok wrapper /\
    fst (wrapper examples_more.flaky) = Returned (VInt 42) /\
    calls (snd (wrapper examples_more.flaky)) = 3%nat /\
    sleeps (snd (wrapper examples_more.flaky)) = replicate 2 1%Q.
Proof.
  apply (retry_returns_first_success examples_more.flaky 3 1 2 (VInt 42)).
  - lia.
  - reflexivity.
  - lia.
  - intros [|[|j]] Hj; [by eexists | by eexists | lia].
  - reflexivity.
Defined.

(** X12 (failure is swallowed).  With [retries >= 1] and [delay > 0], when
    each of the first [retries] invocations raises an exception, the wrapper
    raises nothing: it returns [None], having called the function [retries]
    times and slept [retries - 1] times; the last thing it prints is the
    report of the failure. *)
Theorem retry_exhausted_returns_none func retries delay :
  1 <= retries ->
  (0 < delay)%Q ->
  (forall j, Z.of_nat j < retries -> exists e, func j = Raised (Exc e)) ->
  exists wrapper,
    retry retries delay = Ok wrapper /\
    fst (wrapper func) = Returned VNone /\
    calls (snd (wrapper func)) = Z.to_nat retries /\
    sleeps (snd (wrapper func)) = replicate (Z.to_nat retries - 1) delay /\
    last (snd (wrapper func)) = Some (Printed (FailedAfter retries)).
Proof.
  intros Hr Hd Hfail.
  exists (fun func => retry_wrapper func retries delay). split.
  { unfold retry. assert ((retries <? 1) = false) as -> by (apply Z.ltb_ge; lia).
    destruct (Qle_bool delay 0) eqn:Hq; [|done].
    apply Qle_bool_iff in Hq. exfalso. by apply (Qlt_not_le _ _ Hd). }
  unfold retry_wrapper.
  destruct (retry_loop_failures func retries delay (Z.to_nat retries - 1)
              (Z.to_nat retries) 0) as (rounds & Hc & Hs & ->).
  { intros j Hj. apply Hfail. lia. }
  { simpl. lia. }
  { lia. }
  cbn [plus].
  replace (Z.to_nat retries - (Z.to_nat retries - 1))%nat with 1%nat by lia.
  destruct (Hfail (Z.to_nat retries - 1)%nat) as [e He]; [lia|].
  cbn [retry_loop]. rewrite He.
  assert ((Z.of_nat (S (Z.to_nat retries - 1)) =? retries) = true) as ->
    by (apply Z.eqb_eq; lia).
  cbn [fst snd]. split; [done|]. rewrite calls_app, sleeps_app, Hc, Hs.
  split; [unfold calls; simpl; lia|]. split; [by rewrite app_nil_r|].
  rewrite last_app. done.
Qed.

Lemma retry_exhausted_returns_none_witness :
  exists wrapper,
    retry 2 (1 # 2) = Ok wrapper /\
    fst (wrapper examples_more.broken) = Returned VNone /\
    calls (snd (wrapper examples_more.broken)) = Z.to_nat 2 /\
    sleeps (snd (wrapper examples_more.broken))
      = replicate (Z.to_nat 2 - 1) (1 # 2)%Q /\
    last (snd (wrapper examples_more.broken)) = Some (Printed (FailedAfter 2)).
Proof.
  apply (retry_exhausted_returns_none examples_more.broken 2 (1 # 2)).
  - lia.
  - reflexivity.
  - intros j _. by eexists.
Defined.

(** X13 (what is not retried).  An invocation that raises
    [KeyboardInterrupt] or [SystemExit] ends the wrapper at once: the
    exception propagates, and the function is not called again even when
    attempts are left. *)
Theorem retry_base_exception_propagates func retries delay k r :
  1 <= retries ->
  (0 < delay)%Q ->
  Z.of_nat k < retries ->
  (forall j, (j < k)%nat -> exists e, func j = Raised (Exc e)) ->
  func k = Raised r ->
  (forall e, r <> Exc e) ->
  exists wrapper,
    retry retries delay = Ok wrapper /\
    fst (wrapper func) = Raised r /\
    calls (snd (wrapper func)) = S k.
Proof.
  intros Hr Hd Hk Hfail Hraise Hbase.
  exists (fun func => retry_wrapper func retries delay). split.
  { unfold retry. assert ((retries <? 1) = false) as -> by (apply Z.ltb_ge; lia).
    destruct (Qle_bool delay 0) eqn:Hq; [|done].
    apply Qle_bool_iff in Hq. exfalso. by apply (Qlt_not_le _ _ Hd). }
  unfold retry_wrapper.
  destruct (retry_loop_failures func retries delay k (Z.to_nat retries) 0)
    as (rounds & Hc & Hs & ->).
  { intros j Hj. apply Hfail. lia. }
  { simpl. lia. }
  { lia. }
  cbn [plus]. destruct (Z.to_nat retries - k)%nat as [|todo] eqn:Htodo; [lia|].
  cbn [retry_loop]. rewrite Hraise.
  destruct r as [e| |]; [by destruct (Hbase e)| |];
    cbn [fst snd]; (split; [done|]); rewrite calls_app, Hc;
    unfold calls; simpl; lia.
Qed.

Lemma retry_base_exception_propagates_witness :
  exists wrapper,
    retry 5 1 = Ok wrapper /\
    fst (wrapper examples_more.interrupted) = Raised KeyboardInterrupt /\
    calls (snd (wrapper examples_more.interrupted)) = 2%nat.
Proof.
  apply (retry_base_exception_propagates examples_more.interrupted 5 1 1
           KeyboardInterrupt).
  - lia.
  - reflexivity.
  - lia.
  - intros [|j] Hj; [by eexists | lia].
  - reflexivity.
  - discriminate.
Defined.

Lemma retry_loop_bounds func retries delay todo k :
  Z.of_nat (k + todo) = retries ->
  (1 <= todo)%nat ->
  (1 <= calls (snd (retry_loop func retries delay todo k)) <= todo)%nat /\
  Forall (fun d => d = delay) (sleeps (snd (retry_loop func retries delay todo k))) /\
  (length (sleeps (snd (retry_loop func retries delay todo k)))
   < calls (snd (retry_loop func retries delay todo k)))%nat.
Proof.
  revert k. induction todo as [|todo IH]; intros k Hsum Hpos; [lia|].
  cbn [retry_loop]. destruct (func k) as [v|[e| |]].
  - cbn. repeat split; [lia | lia | constructor | lia].
  - destruct (Z.eqb_spec (Z.of_nat (S k)) retries) as [Heq|Hne].
    + cbn. repeat split; [lia | lia | constructor | lia].
    + destruct (IH (S k)) as ([Hc1 Hc2] & Hs & Hlt); [lia | lia |].
      destruct (retry_loop func retries delay todo (S k)) as [r events].
      cbn [snd] in *.
      change (Called :: Printed (Running (Z.of_nat (S k)))
                :: Printed (ErrorRetrying e) :: Slept delay :: events)
        with ([Called; Printed (Running (Z.of_nat (S k)));
               Printed (ErrorRetrying e); Slept delay] ++ events).
      rewrite calls_app, sleeps_app, length_app.
      change (calls [Called; Printed (Running (Z.of_nat (S k)));
                     Printed (ErrorRetrying e); Slept delay]) with 1%nat.
      change (sleeps [Called; Printed (Running (Z.of_nat (S k)));
                      Printed (ErrorRetrying e); Slept delay]) with [delay].
      repeat split; [lia | lia | by constructor | simpl; lia].
  - cbn. repeat split; [lia | lia | constructor | lia].
  - cbn. repeat split; [lia | lia | constructor | lia].
Qed.

(** X23 (how often the function is called).  With [retries >= 1] and
    [delay > 0], whatever the function does, the wrapper invokes it at least
    once and at most [retries] times, sleeps [delay] and nothing else, and
    sleeps fewer times than it calls: never after the last invocation. *)
Theorem retry_call_bounds func retries delay :
  1 <= retries ->
  (0 < delay)%Q ->
  exists wrapper,
    retry retries delay = Ok wrapper /\
    (1 <= calls (snd (wrapper func)) <= Z.to_nat retries)%nat /\
    Forall (fun d => d = delay) (sleeps (snd (wrapper func))) /\
    (length (sleeps (snd (wrapper func))) < calls (snd (wrapper func)))%nat.
Proof.
  intros Hr Hd.
  exists (fun func => retry_wrapper func retries delay). split.
  { unfold retry. assert ((retries <? 1) = false) as -> by (apply Z.ltb_ge; lia).
    destruct (Qle_bool delay 0) eqn:Hq; [|done].
    apply Qle_bool_iff in Hq. exfalso. by apply (Qlt_not_le _ _ Hd). }
  unfold retry_wrapper. apply retry_loop_bounds; lia.
Qed.

Lemma retry_call_bounds_witness :
  exists wrapper,
    retry 3 1 = Ok wrapper /\
    (1 <= calls (snd (wrapper examples_more.interrupted)) <= Z.to_nat 3)%nat /\
    Forall (fun d => d = 1%Q) (sleeps (snd (wrapper examples_more.interrupted))) /\
    (length (sleeps (snd (wrapper examples_more.interrupted)))
     < calls (snd (wrapper examples_more.interrupted)))%nat.
Proof.
  apply (retry_call_bounds examples_more.interrupted 3 1); [lia | reflexivity].
Defined.

Example retry_rejects_no_attempt : retry 0 1 = Raise ValueError.
Proof. reflexivity. Qed.

Example retry_rejects_no_delay : retry 3 0 = Raise ValueError.
Proof. reflexivity. Qed.

End retry_properties.

(** * [load_jsonl] *)

Section load_jsonl_properties.

Import functions_more.

Variable loads : string -> json + string.

Lemma texts_app l1 l2 : texts (l1 ++ l2) = texts l1 ++ texts l2.
Proof. unfold texts. by rewrite fmap_app, List.filter_app. Qed.

Lemma texts_cons line lines :
  texts (line :: lines)
  = if os.nonempty (strip line) then strip line :: texts lines else texts lines.
Proof. reflexivity. Qed.

Lemma each_line_ok lines vs data_list :
  Forall2 (fun t v => loads t = inl v) (texts lines) vs ->
  each_line loads lines data_list = inl (data_list ++ vs).
Proof.
  revert vs data_list. induction lines as [|line lines IH]; intros vs acc H.
  - inversion H. simpl. by rewrite app_nil_r.
  - rewrite texts_cons in H. cbn [each_line].
    destruct (os.nonempty (strip line)); [|by apply IH].
    inversion H as [|t v ts vs' Hv Hrest]; subst. rewrite Hv.
    rewrite (IH vs' _ Hrest). by rewrite <- app_assoc.
Qed.

Lemma each_line_bad lines pre t post msg data_list :
  texts lines = pre ++ t :: post ->
  Forall (fun u => exists v, loads u = inl v) pre ->
  loads t = inr msg ->
  each_line loads lines data_list = inr msg.
Proof.
  revert pre data_list. induction lines as [|line lines IH]; intros pre acc E Hpre Ht.
  - by destruct pre.
  - rewrite texts_cons in E. cbn [each_line].
    destruct (os.nonempty (strip line)); [|by eapply IH].
    destruct pre as [|u pre]; simplify_eq/=.
    + by rewrite Ht.
    + apply Forall_cons in Hpre as [[v ->] Hpre]. by eapply IH.
Qed.

(** Lines that close nothing are collected. *)
Lemma each_object_body body rest json_lines data_list :
  Forall (fun line => closes line = false) body ->
  each_object loads (body ++ rest) json_lines data_list
  = each_object loads rest (json_lines ++ texts body) data_list.
Proof.
  intros H. revert json_lines.
  induction H as [|line body Hline _ IH]; intros json_lines.
  - by rewrite app_nil_r.
  - cbn [app each_object]. unfold closes in Hline. rewrite Hline, IH.
    rewrite texts_cons. destruct (os.nonempty (strip line)); [|done].
    by rewrite <- app_assoc.
Qed.

(** The lines of one object are decoded together. *)
Lemma each_object_chunk chunk rest json_lines data_list :
  object_lines chunk ->
  each_object loads (chunk ++ rest) json_lines data_list
  = match loads (String.concat "" (json_lines ++ texts chunk)) with
    | inl obj => each_object loads rest [] (data_list ++ [obj])
    | inr msg => inr msg
    end.
Proof.
  intros (body & close & -> & Hclose & Hbody).
  rewrite <- app_assoc, each_object_body by done.
  cbn [app each_object]. unfold closes in Hclose. rewrite Hclose.
  rewrite texts_app, app_assoc.
  apply String.eqb_eq in Hclose as Hc.
  rewrite texts_cons, Hc. done.
Qed.

Lemma each_object_chunks chunks vs tail data_list :
  Forall object_lines chunks ->
  Forall (fun line => closes line = false) tail ->
  Forall2 (fun chunk v => loads (object_text chunk) = inl v) chunks vs ->
  each_object loads (concat chunks ++ tail) [] data_list = inl (data_list ++ vs).
Proof.
  intros Hchunks Htail H. revert data_list.
  induction H as [|chunk v chunks vs Hv _ IH]; intros acc.
  - simpl. rewrite <- (app_nil_r tail), each_object_body by done.
    simpl. by rewrite app_nil_r.
  - apply Forall_cons in Hchunks as [Hc Hchunks].
    cbn [concat]. rewrite <- app_assoc, each_object_chunk by done.
    rewrite app_nil_l. unfold object_text in Hv. rewrite Hv.
    rewrite IH by done. by rewrite <- app_assoc.
Qed.

Lemma each_object_tail lines tail json_lines data_list :
  Forall (fun line => closes line = false) tail ->
  each_object loads (lines ++ tail) json_lines data_list
  = each_object loads lines json_lines data_list.
Proof.
  intros Htail. revert json_lines data_list.
  induction lines as [|line lines IH]; intros json_lines acc.
  - rewrite app_nil_l, <- (app_nil_r tail), each_object_body by done. done.
  - cbn [app each_object]. destruct (String.eqb (strip line) "}"); [|apply IH].
    destruct (loads _); [apply IH | done].
Qed.

Lemma load_lines_each_line lines :
  starts_object lines = false ->
  load_lines loads lines
  = match each_line loads lines [] with
    | inl data_list => (data_list, [])
    | inr msg => ([], ["Error decoding JSON: " +:+ msg])
    end.
Proof. destruct lines as [|first lines]; [done|]. simpl. by intros ->. Qed.

Lemma load_lines_each_object lines :
  starts_object lines = true ->
  load_lines loads lines
  = match each_object loads lines [] [] with
    | inl data_list => (data_list, [])
    | inr msg => ([], ["Error decoding JSON: " +:+ msg])
    end.
Proof. destruct lines as [|first lines]; [done|]. simpl. by intros ->. Qed.

(** X14 (one JSON text per line).  When the first line is not an opening
    brace alone, and every non-blank line, stripped, decodes: [load_jsonl]
    returns the decoded values of the non-blank lines, in order, and prints
    nothing. *)
Theorem load_jsonl_each_line files file_path text vs :
  files !! file_path = Some text ->
  starts_object (readlines text) = false ->
  Forall2 (fun t v => loads t = inl v) (texts (readlines text)) vs ->
  load_jsonl loads files file_path = Ok (vs, []).
Proof.
  intros Hf Hstart H. unfold load_jsonl. rewrite Hf.
  by rewrite load_lines_each_line, (each_line_ok _ vs []).
Qed.

(** X15 (one bad line loses the file).  When the first line is not an
    opening brace alone and some non-blank line does not decode, [load_jsonl]
    raises nothing: it prints the message of the first such line and returns
    the empty list, whatever the other lines hold. *)
Theorem load_jsonl_bad_line files file_path text pre t post msg :
  files !! file_path = Some text ->
  starts_object (readlines text) = false ->
  texts (readlines text) = pre ++ t :: post ->
  Forall (fun u => exists v, loads u = inl v) pre ->
  loads t = inr msg ->
  load_jsonl loads files file_path = Ok ([], ["Error decoding JSON: " +:+ msg]).
Proof.
  intros Hf Hstart E Hpre Ht. unfold load_jsonl. rewrite Hf.
  by rewrite load_lines_each_line, (each_line_bad _ pre t post msg []).
Qed.

(** X16 (indented objects).  When the first line is an opening brace
    alone, the lines are cut after every line that is a closing brace alone:
    if the lines are objects, each ending at its first such line, followed by
    lines that close nothing, and the stripped lines of each object, joined,
    decode, then [load_jsonl] returns these values in order. *)
Theorem load_jsonl_objects files file_path text chunks tail vs :
  files !! file_path = Some text ->
  readlines text = concat chunks ++ tail ->
  starts_object (readlines text) = true ->
  Forall object_lines chunks ->
  Forall (fun line => closes line = false) tail ->
  Forall2 (fun chunk v => loads (object_text chunk) = inl v) chunks vs ->
  load_jsonl loads files file_path = Ok (vs, []).
Proof.
  intros Hf E Hstart Hchunks Htail H. unfold load_jsonl. rewrite Hf.
  rewrite load_lines_each_object by done.
  by rewrite E, (each_object_chunks chunks vs tail []).
Qed.

(** X17 (an unfinished object is dropped).  When the first line is an
    opening brace alone, the lines after the last closing line are never
    decoded: the file gives what it gives without them, and nothing is
    printed about them. *)
Theorem load_jsonl_unfinished_dropped files file_path text lines tail :
  files !! file_path = Some text ->
  readlines text = lines ++ tail ->
  starts_object lines = true ->
  Forall (fun line => closes line = false) tail ->
  load_jsonl loads files file_path = Ok (load_lines loads lines).
Proof.
  intros Hf E Hstart Htail. unfold load_jsonl. rewrite Hf, E.
  rewrite !load_lines_each_object; [|done|by destruct lines].
  by rewrite each_object_tail.
Qed.

End load_jsonl_properties.

Section load_jsonl_examples.

Import functions_more examples_more.

Lemma load_jsonl_each_line_witness :
  load_jsonl loads_table {[ "data.jsonl"%string := ln "1" +:+ ln "  " +:+ ln " [] " ]}
    "data.jsonl"
  = Ok ([JInt 1; JList []], []).
Proof.
  eapply (load_jsonl_each_line loads_table).
  - vm_compute. reflexivity.
  - vm_compute. reflexivity.
  - vm_compute. repeat constructor.
Defined.

Lemma load_jsonl_bad_line_witness :
  load_jsonl loads_table {[ "data.jsonl"%string := ln "1" +:+ ln "oops" +:+ ln "[]" ]}
    "data.jsonl"
  = Ok ([], ["Error decoding JSON: Expecting value"%string]).
Proof.
  eapply (load_jsonl_bad_line loads_table _ _ _ ["1"%string] "oops" ["[]"%string]).
  - vm_compute. reflexivity.
  - vm_compute. reflexivity.
  - vm_compute. reflexivity.
  - repeat constructor. by eexists.
  - reflexivity.
Defined.

Lemma load_jsonl_objects_witness :
  load_jsonl loads_table
    {[ "data.jsonl"%string := ln "{" +:+ ln "}" +:+ ln "{" +:+ ln "" +:+ ln "  }" +:+ ln "{" ]}
    "data.jsonl"
  = Ok ([JDict []; JDict []], []).
Proof.
  eapply (load_jsonl_objects loads_table _ _ _
            [[ln "{"; ln "}"]; [ln "{"; ln ""; ln "  }"]] [ln "{"]).
  - vm_compute. reflexivity.
  - vm_compute. reflexivity.
  - vm_compute. reflexivity.
  - repeat constructor.
    + exists [ln "{"], (ln "}"). repeat constructor.
    + exists [ln "{"; ln ""], (ln "  }"). repeat constructor.
  - repeat constructor.
  - repeat constructor.
Defined.

Lemma load_jsonl_unfinished_dropped_witness :
  load_jsonl loads_table
    {[ "data.jsonl"%string := ln "{" +:+ ln "}" +:+ ln "{" +:+ ln "1" ]} "data.jsonl"
  = Ok (load_lines loads_table [ln "{"; ln "}"]).
Proof.
  eapply (load_jsonl_unfinished_dropped loads_table _ _ _ _ [ln "{"; ln "1"]).
  - vm_compute. reflexivity.
  - vm_compute. reflexivity.
  - vm_compute. reflexivity.
  - repeat constructor.
Defined.

(** An object with an inner closing brace on a line of its own is cut at
    that line, and the whole file is lost. *)
Example load_jsonl_nested_object :
  load_lines loads_table [ln "{"; ln "  {"; ln "  }"; ln "}"]
  = ([], ["Error decoding JSON: Expecting value"%string]).
Proof. vm_compute. reflexivity. Qed.

Example load_jsonl_empty_file :
  load_jsonl loads_table {[ "data.jsonl"%string := ""%string ]} "data.jsonl"
  = Ok ([], []).
Proof. vm_compute. reflexivity. Qed.

Example load_jsonl_no_file :
  load_jsonl loads_table ∅ "data.jsonl" = Raise FileNotFoundError.
Proof. vm_compute. reflexivity. Qed.

End load_jsonl_examples.

(** * [cache] *)

Section cache_properties.

Import functions decorators.

Lemma pyval_nested_ind (P : pyval -> Prop) :
  P VNone ->
  (forall b, P (VBool b)) ->
  (forall z, P (VInt z)) ->
  (forall s, P (VStr s)) ->
  (forall xs, Forall P xs -> P (VTuple xs)) ->
  (forall xs, Forall P xs -> P (VList xs)) ->
  forall v, P v.
Proof.
  intros HN HB HI HS HT HL. fix IH 1. intros [|b|z|s|xs|xs].
  - exact HN.
  - apply HB.
  - apply HI.
  - apply HS.
  - apply HT. induction xs as [|x xs IHxs]; constructor; [apply IH | exact IHxs].
  - apply HL. induction xs as [|x xs IHxs]; constructor; [apply IH | exact IHxs].
Qed.

Lemma py_eq_tuple xs ys : py_eq (VTuple xs) (VTuple ys) = all_eqb xs ys.
Proof.
  revert ys. induction xs as [|x xs IH]; intros [|y ys]; reflexivity.
Qed.

Lemma py_eq_list xs ys : py_eq (VList xs) (VList ys) = all_eqb xs ys.
Proof.
  revert ys. induction xs as [|x xs IH]; intros [|y ys]; reflexivity.
Qed.

Lemma py_eq_refl a : py_eq a a = true.
Proof.
  induction a as [|b|z|s|xs IH|xs IH] using pyval_nested_ind.
  - done.
  - by destruct b.
  - apply Z.eqb_refl.
  - apply String.eqb_refl.
  - rewrite py_eq_tuple. induction IH as [|x xs Hx _ IHxs]; [done|].
    cbn. by rewrite Hx.
  - rewrite py_eq_list. induction IH as [|x xs Hx _ IHxs]; [done|].
    cbn. by rewrite Hx.
Qed.

Lemma all_eqb_sym xs ys :
  Forall (fun x => forall y, py_eq x y = py_eq y x) xs ->
  all_eqb xs ys = all_eqb ys xs.
Proof.
  intros H. revert ys. induction H as [|x xs Hx _ IH]; intros [|y ys]; try done.
  cbn. by rewrite Hx, IH.
Qed.

Lemma py_eq_sym a b : py_eq a b = py_eq b a.
Proof.
  revert b. induction a as [|x|z|s|xs IH|xs IH] using pyval_nested_ind;
    intros [|y|z'|s'|ys|ys]; try reflexivity.
  - by destruct x, y.
  - cbn. apply Z.eqb_sym.
  - cbn. apply Z.eqb_sym.
  - cbn. apply Z.eqb_sym.
  - cbn. apply String.eqb_sym.
  - rewrite !py_eq_tuple. by apply all_eqb_sym.
  - rewrite !py_eq_list. by apply all_eqb_sym.
Qed.

Lemma all_eqb_trans xs ys zs :
  Forall (fun x => forall y z, py_eq x y = true -> py_eq y z = true ->
                               py_eq x z = true) xs ->
  all_eqb xs ys = true -> all_eqb ys zs = true -> all_eqb xs zs = true.
Proof.
  intros H. revert ys zs.
  induction H as [|x xs Hx _ IH]; intros [|y ys] [|z zs]; try done.
  cbn. intros [H1 H2]%andb_prop [H3 H4]%andb_prop.
  rewrite (Hx y z H1 H3). by rewrite (IH ys zs H2 H4).
Qed.

Lemma py_eq_trans a b c :
  py_eq a b = true -> py_eq b c = true -> py_eq a c = true.
Proof.
  revert b c. induction a as [|x|z|s|xs IH|xs IH] using pyval_nested_ind;
    intros b c; destruct b as [|y|z'|s'|ys|ys], c as [|w|z''|s''|zs|zs];
    try solve
      [ intros H1 H2; cbn in *;
        repeat match goal with b : bool |- _ => destruct b end; cbn in *;
        repeat match goal with
               | H : (_ =? _) = true |- _ => apply Z.eqb_eq in H
               | H : String.eqb _ _ = true |- _ => apply String.eqb_eq in H
               end;
        subst; cbn; try done; try apply Z.eqb_refl; try apply String.eqb_refl ].
  - rewrite !py_eq_tuple. by apply all_eqb_trans.
  - rewrite !py_eq_list. by apply all_eqb_trans.
Qed.

Lemma hashable_py_eq a b : py_eq a b = true -> hashable a = hashable b.
Proof.
  revert b. induction a as [|x|z|s|xs IH|xs IH] using pyval_nested_ind;
    intros [|y|z'|s'|ys|ys]; try done.
  rewrite py_eq_tuple. cbn [hashable]. revert ys.
  induction IH as [|x xs Hx _ IHxs]; intros [|y ys]; try done.
  cbn. intros [H1 H2]%andb_prop. by rewrite (Hx y H1), (IHxs ys H2).
Qed.

(** *** The dictionary *)

Lemma dict_get_py_eq d key key' :
  py_eq key key' = true -> dict_get d key = dict_get d key'.
Proof.
  intros H. induction d as [|[k v] d IH]; [done|]. cbn [dict_get].
  assert (py_eq k key = py_eq k key') as ->; [|by rewrite IH].
  destruct (py_eq k key) eqn:H1, (py_eq k key') eqn:H2; try done.
  - by rewrite (py_eq_trans _ _ _ H1 H) in H2.
  - rewrite py_eq_sym in H. by rewrite (py_eq_trans _ _ _ H2 H) in H1.
Qed.

Lemma dict_get_app_Some d d' key v :
  dict_get d key = Some v -> dict_get (d ++ d') key = Some v.
Proof.
  induction d as [|[k w] d IH]; [done|]. cbn [app dict_get].
  destruct (py_eq k key); [done | apply IH].
Qed.

Lemma dict_get_app_None d d' key :
  dict_get d key = None -> dict_get (d ++ d') key = dict_get d' key.
Proof.
  induction d as [|[k w] d IH]; [done|]. cbn [app dict_get].
  destruct (py_eq k key); [done | apply IH].
Qed.

Lemma dict_get_elem d key v :
  dict_get d key = Some v ->
  exists k, In (k, v) d /\ py_eq k key = true.
Proof.
  induction d as [|[k w] d IH]; [done|]. cbn [dict_get].
  destruct (py_eq k key) eqn:Hk.
  - intros [= ->]. exists k. split; [by left | done].
  - intros (k' & Hin & Hk')%IH. exists k'. split; [by right | done].
Qed.

(** The wrapper only adds entries, and a sequence of calls too. *)
Lemma cache_wrapper_grows func c args kwargs :
  exists d, snd (fst (cache_wrapper func c args kwargs)) = c ++ d.
Proof.
  unfold cache_wrapper. destruct (negb _); [exists []; by rewrite app_nil_r|].
  destruct (dict_get c _); [exists []; by rewrite app_nil_r|].
  destruct (func args kwargs); [by eexists | exists []; by rewrite app_nil_r].
Qed.

Lemma cache_calls_grows func c cs : exists d, cache_calls func c cs = c ++ d.
Proof.
  revert c. induction cs as [|[args kwargs] cs IH]; intros c.
  - exists []. by rewrite app_nil_r.
  - cbn [cache_calls].
    destruct (cache_wrapper_grows func c args kwargs) as [d ->].
    destruct (IH (c ++ d)) as [d' ->]. exists (d ++ d'). by rewrite app_assoc.
Qed.

(** Every entry of the dictionary holds what [func] returned on the
    arguments of its key. *)
Lemma cache_wrapper_entries func c args kwargs :
  Forall (fun entry => exists args0 kwargs0,
            entry.1 = make_key args0 kwargs0 /\
            func args0 kwargs0 = Returned entry.2) c ->
  Forall (fun entry => exists args0 kwargs0,
            entry.1 = make_key args0 kwargs0 /\
            func args0 kwargs0 = Returned entry.2)
    (snd (fst (cache_wrapper func c args kwargs))).
Proof.
  intros H. unfold cache_wrapper. destruct (negb _); [done|].
  destruct (dict_get c _); [done|].
  destruct (func args kwargs) eqn:Hf; [|done]. cbn [fst snd].
  apply Forall_app. split; [done|]. constructor; [|done]. by exists args, kwargs.
Qed.

Lemma cache_calls_entries func cs c :
  Forall (fun entry => exists args0 kwargs0,
            entry.1 = make_key args0 kwargs0 /\
            func args0 kwargs0 = Returned entry.2) c ->
  Forall (fun entry => exists args0 kwargs0,
            entry.1 = make_key args0 kwargs0 /\
            func args0 kwargs0 = Returned entry.2) (cache_calls func c cs).
Proof.
  revert c. induction cs as [|[args kwargs] cs IH]; intros c H; [done|].
  cbn [cache_calls]. by apply IH, cache_wrapper_entries.
Qed.

(** *** The sorted keyword arguments *)

Lemma leb_false_lt a b : String.leb a b = false -> String.leb b a = true.
Proof. intros H. destruct (String.leb_total a b) as [H'|H']; congruence. Qed.

Lemma leb_trans a b c :
  String.leb a b = true -> String.leb b c = true -> String.leb a c = true.
Proof.
  intros H1%Is_true_true H2%Is_true_true. apply Is_true_true.
  by apply (transitivity (R := String.le) (y := b)).
Qed.

Lemma leb_true_not_ge a b :
  a <> b -> String.leb a b = true -> String.leb b a = false.
Proof.
  intros Hne H. destruct (String.leb b a) eqn:H'; [|done].
  destruct Hne. by apply String.leb_antisym.
Qed.

Lemma insert_item_comm a b items :
  a.1 <> b.1 ->
  insert_item a (insert_item b items) = insert_item b (insert_item a items).
Proof.
  intros Hne.
  induction items as [|c items IH].
  - cbn. destruct (String.leb a.1 b.1) eqn:H1.
    + by rewrite (leb_true_not_ge _ _ Hne H1).
    + by rewrite (leb_false_lt _ _ H1).
  - cbn [insert_item].
    destruct (String.leb b.1 c.1) eqn:Hbc, (String.leb a.1 c.1) eqn:Hac;
      cbn [insert_item fst].
    + rewrite Hbc, Hac. destruct (String.leb a.1 b.1) eqn:H1.
      * by rewrite (leb_true_not_ge _ _ Hne H1).
      * by rewrite (leb_false_lt _ _ H1).
    + rewrite Hbc, Hac.
      assert (String.leb a.1 b.1 = false) as H1.
      { destruct (String.leb a.1 b.1) eqn:H1; [|done].
        by rewrite (leb_trans _ _ _ H1 Hbc) in Hac. }
      by rewrite H1.
    + rewrite Hbc, Hac.
      assert (String.leb b.1 a.1 = false) as H1.
      { destruct (String.leb b.1 a.1) eqn:H1; [|done].
        by rewrite (leb_trans _ _ _ H1 Hac) in Hbc. }
      by rewrite H1.
    + by rewrite Hbc, Hac, IH.
Qed.

Lemma insert_item_perm a items : insert_item a items ≡ₚ a :: items.
Proof.
  induction items as [|c items IH]; [done|]. cbn [insert_item].
  destruct (String.leb a.1 c.1); [done|]. rewrite IH. apply Permutation_swap.
Qed.

Lemma sorted_items_perm kwargs : sorted_items kwargs ≡ₚ kwargs.
Proof.
  unfold sorted_items. induction kwargs as [|a kwargs IH]; [done|].
  cbn [foldr]. by rewrite insert_item_perm, IH.
Qed.

Lemma sorted_items_permutation kwargs kwargs' :
  kwargs ≡ₚ kwargs' ->
  NoDup kwargs.*1 ->
  sorted_items kwargs = sorted_items kwargs'.
Proof.
  unfold sorted_items.
  induction 1 as [|a l l' _ IH|a b l|l l' l'' H1 IH1 H2 IH2]; intros Hnd.
  - done.
  - cbn [foldr]. rewrite IH; [done|].
    rewrite fmap_cons in Hnd. by apply NoDup_cons in Hnd as [_ ?].
  - cbn [foldr]. apply insert_item_comm.
    rewrite !fmap_cons in Hnd. apply NoDup_cons in Hnd as [Hnd _].
    intros E. apply Hnd. rewrite <- E. by left.
  - rewrite IH1 by done. apply IH2. by rewrite <- H1.
Qed.

(** *** The wrapper *)

Lemma hashable_key args kwargs :
  hashable (make_key args kwargs)
  = forallb hashable args
    && forallb (fun item => hashable item.2) (sorted_items kwargs).
Proof.
  unfold make_key. cbn [hashable forallb]. rewrite andb_true_r. f_equal.
  induction (sorted_items kwargs) as [|item items IH]; [done|].
  rewrite fmap_cons. cbn [forallb hashable]. by rewrite IH, andb_true_r.
Qed.

(** After a call returned [v], a call whose key is equal finds [v]. *)
Lemma cache_hit func c args kwargs v c1 n1 cs args' kwargs' :
  cache_wrapper func c args kwargs = (Returned v, c1, n1) ->
  py_eq (make_key args kwargs) (make_key args' kwargs') = true ->
  cache_wrapper func (cache_calls func c1 cs) args' kwargs'
  = (Returned v, cache_calls func c1 cs, 0%nat).
Proof.
  intros Hcall Hkey.
  assert (hashable (make_key args kwargs) = true
          /\ dict_get c1 (make_key args kwargs) = Some v) as [Hh Hget].
  { unfold cache_wrapper in Hcall.
    destruct (hashable (make_key args kwargs)); [|done]. split; [done|].
    cbn [negb] in Hcall.
    destruct (dict_get c (make_key args kwargs)) as [w|] eqn:Hc.
    - by simplify_eq.
    - destruct (func args kwargs); simplify_eq.
      rewrite dict_get_app_None by done. cbn [dict_get]. by rewrite py_eq_refl. }
  destruct (cache_calls_grows func c1 cs) as [d ->].
  unfold cache_wrapper.
  rewrite <- (hashable_py_eq _ _ Hkey), Hh. cbn [negb].
  rewrite <- (dict_get_py_eq _ _ _ Hkey).
  by rewrite (dict_get_app_Some _ d _ _ Hget).
Qed.

(** X18 (a repeated call is served from the dictionary).  After a call of
    the wrapper returned [v], and whatever calls were made since, a call
    whose arguments compare equal to those of the first returns [v] without
    invoking the function and leaves the dictionary as it is.  Equal means
    [==]: [1] and [True] are the same key. *)
Theorem cache_repeated_call func c args kwargs v c1 n1 cs args' kwargs' :
  cache_wrapper func c args kwargs = (Returned v, c1, n1) ->
  py_eq (make_key args kwargs) (make_key args' kwargs') = true ->
  cache_wrapper func (cache_calls func c1 cs) args' kwargs'
  = (Returned v, cache_calls func c1 cs, 0%nat).
Proof. apply cache_hit. Qed.

Lemma cache_repeated_call_witness :
  cache_wrapper examples_more.describe
    (cache_calls examples_more.describe
       [(make_key [VInt 1] [], VTuple [VInt 1; VInt 0])]
       [([VInt 2], []); ([VList []], [])])
    [VBool true] []
  = (Returned (VTuple [VInt 1; VInt 0]),
     cache_calls examples_more.describe
       [(make_key [VInt 1] [], VTuple [VInt 1; VInt 0])]
       [([VInt 2], []); ([VList []], [])],
     0%nat).
Proof.
  apply (cache_repeated_call examples_more.describe [] [VInt 1] [] _ _ 1%nat);
    reflexivity.
Defined.

(** X19 (the order of keyword arguments).  After a call of the wrapper
    returned [v], a call with the same positional arguments and the same
    keyword arguments written in another order returns [v] without invoking
    the function. *)
Theorem cache_keyword_order func c args kwargs v c1 n1 cs kwargs' :
  cache_wrapper func c args kwargs = (Returned v, c1, n1) ->
  kwargs ≡ₚ kwargs' ->
  NoDup kwargs.*1 ->
  cache_wrapper func (cache_calls func c1 cs) args kwargs'
  = (Returned v, cache_calls func c1 cs, 0%nat).
Proof.
  intros Hcall Hperm Hnd. eapply cache_hit; [exact Hcall|].
  unfold make_key. rewrite (sorted_items_permutation _ _ Hperm Hnd).
  apply py_eq_refl.
Qed.

Lemma cache_keyword_order_witness :
  cache_wrapper examples_more.describe
    [(make_key [VInt 1] [("a"%string, VInt 2); ("b"%string, VInt 3)],
      VTuple [VInt 1; VInt 2])]
    [VInt 1] [("b"%string, VInt 3); ("a"%string, VInt 2)]
  = (Returned (VTuple [VInt 1; VInt 2]),
     [(make_key [VInt 1] [("a"%string, VInt 2); ("b"%string, VInt 3)],
       VTuple [VInt 1; VInt 2])],
     0%nat).
Proof.
  apply (cache_keyword_order examples_more.describe [] [VInt 1]
           [("a"%string, VInt 2); ("b"%string, VInt 3)] _ _ 1%nat []).
  - reflexivity.
  - apply Permutation_swap.
  - cbn. apply NoDup_cons. split; [|apply NoDup_singleton].
    by intros [=]%list_elem_of_singleton.
Defined.

(** X20 (what the wrapper returns).  Starting from the empty dictionary,
    after any calls, a value that the wrapper returns is a value that the
    function returned on arguments whose key compares equal to that of the
    call; a failed invocation is never stored. *)
Theorem cache_returns_computed func cs args kwargs v c n :
  cache_wrapper func (cache_calls func [] cs) args kwargs = (Returned v, c, n) ->
  exists args0 kwargs0,
    py_eq (make_key args0 kwargs0) (make_key args kwargs) = true /\
    func args0 kwargs0 = Returned v.
Proof.
  intros Hcall.
  pose proof (cache_calls_entries func cs [] (Forall_nil_2 _)) as Hent.
  unfold cache_wrapper in Hcall.
  destruct (negb (hashable (make_key args kwargs))); [done|].
  destruct (dict_get (cache_calls func [] cs) (make_key args kwargs))
    as [w|] eqn:Hget.
  - simplify_eq. apply dict_get_elem in Hget as (k & Hin & Hk).
    rewrite Forall_forall in Hent.
    destruct (Hent (k, v)) as (args0 & kwargs0 & E & Hf);
      [by apply list_elem_of_In|].
    cbn in E, Hf. subst k. by exists args0, kwargs0.
  - destruct (func args kwargs) eqn:Hf; simplify_eq.
    exists args, kwargs. split; [apply py_eq_refl | done].
Qed.

Lemma cache_returns_computed_witness :
  exists args0 kwargs0,
    py_eq (make_key args0 kwargs0) (make_key [VBool true] []) = true /\
    examples_more.describe args0 kwargs0 = Returned (VTuple [VInt 1; VInt 0]).
Proof.
  apply (cache_returns_computed examples_more.describe [([VInt 1], [])]
           [VBool true] [] _
           [(make_key [VInt 1] [], VTuple [VInt 1; VInt 0])] 0%nat).
  reflexivity.
Defined.

(** X21 (unhashable arguments).  When a positional or keyword argument is
    a list, the wrapper raises [TypeError]; the function is not invoked and
    the dictionary is unchanged. *)
Theorem cache_unhashable func c args kwargs :
  (exists xs, In (VList xs) args) \/
  (exists name xs, In (name, VList xs) kwargs) ->
  cache_wrapper func c args kwargs = (Raised (Exc TypeError), c, 0%nat).
Proof.
  intros H. unfold cache_wrapper.
  assert (hashable (make_key args kwargs) = false) as ->; [|done].
  rewrite hashable_key. apply andb_false_iff.
  destruct H as [[xs Hin]|(name & xs & Hin)]; [left|right].
  - destruct (forallb hashable args) eqn:Hall; [|done].
    rewrite forallb_forall in Hall. by apply Hall in Hin.
  - destruct (forallb _ (sorted_items kwargs)) eqn:Hall; [|done].
    rewrite forallb_forall in Hall.
    assert (In (name, VList xs) (sorted_items kwargs)) as Hin'.
    { apply list_elem_of_In. rewrite sorted_items_perm. by apply list_elem_of_In. }
    by apply Hall in Hin'.
Qed.

Lemma cache_unhashable_witness :
  cache_wrapper examples_more.describe [] [VList [VInt 1]] []
  = (Raised (Exc TypeError), [], 0%nat).
Proof. apply cache_unhashable. left. eexists. left. reflexivity. Defined.

(** [cache(describe)(1)] and then [cache(describe)(True)]: the second call
    gets the value computed for [1]. *)
Example cache_one_and_true :
  let '(_, c, _) := cache_wrapper examples_more.describe [] [VInt 1] [] in
  cache_wrapper examples_more.describe c [VBool true] []
  = (Returned (VTuple [VInt 1; VInt 0]), c, 0%nat).
Proof. reflexivity. Qed.

End cache_properties.
